(** * insta-story: story discovery, media reconciliation, dedup ledger and
      range server, embedded in Rocq.

    The JavaScript sources are embedded shallowly:
    - [Js]              values and string primitives the sources use;
    - [VideoProcessor]  services/videoProcessor.js ([isAudioOnly],
                        [downloadFile], [combineVideoAudio], [processStory]);
    - [Scraper]         services/instagramScraper.js (the request listener
                        and the story loop of [extractStoryDataFromPage]);
    - [Tracker]         services/storyTracker.js ([StoryTracker]);
    - [Server]          server.js (the [/stream/:id.mp4] route and
                        [DELETE /videos/:id]);
    - [Logger]          utils/logger.js;
    - [Env]             config/env.js ([validateConfig]).

    Conventions.  A JavaScript string is a [string] whose characters are its
    code units (the sources only handle URLs, identifiers and header text).
    Numbers that the sources use as counters, lengths and clock readings
    are exact integers ([nat] or [Z]); the numbers the range route parses
    and prints are doubles ([Server.number]).
    A thrown exception is the [Throw] completion carrying [error.message].
    A [Set] is the list of its elements in insertion order.
    A file is named by its normalised path ([Server.file_key]). *)

From Stdlib Require Import ZArith QArith String Ascii List Bool Lia.
From stdpp Require Import base tactics option list strings pretty gmap.

Local Open Scope Z_scope.

(** ** JavaScript values and primitives *)

Module Js.

(** A statement either completes normally or throws. *)
Inductive completion (A : Type) : Type :=
| Normal (a : A)
| Throw (message : string).
Arguments Normal {A} a.
Arguments Throw {A} message.

#[global] Instance completion_ret : MRet completion := @Normal.
#[global] Instance completion_bind : MBind completion :=
  λ A B f m, match m with Normal a => f a | Throw e => Throw e end.

(** [try { m } catch { return d }] *)
Definition catch_default {A} (m : completion A) (d : A) : A :=
  match m with Normal a => a | Throw _ => d end.

(** The values a story field, a slot field or a [Set] key can take. *)
Inductive value : Type :=
| undefined
| null
| str (s : string).

#[global] Instance value_eq_dec : EqDecision value.
Proof. solve_decision. Defined.

(** ToBoolean *)
Definition truthy (v : value) : bool :=
  match v with
  | str s => negb (String.eqb s "")
  | _ => false
  end.

(** A non-empty string, as a condition and as the string. *)
Definition truthy_string (v : value) : option string :=
  match v with
  | str s => if String.eqb s "" then None else Some s
  | _ => None
  end.

(** [a || b] *)
Definition or_else (a b : value) : value := if truthy a then a else b.

(** [s.startsWith(pre)] *)
Fixpoint startsWith (s pre : string) : bool :=
  match pre with
  | EmptyString => true
  | String a pre' =>
      match s with
      | EmptyString => false
      | String b s' => if Ascii.eqb a b then startsWith s' pre' else false
      end
  end.

(** [s.substring(n)] *)
Fixpoint drop_units (n : nat) (s : string) : string :=
  match n, s with
  | S n', String _ s' => drop_units n' s'
  | _, _ => s
  end.

(** [s.includes(sub)] *)
Fixpoint includes (s sub : string) : bool :=
  startsWith s sub ||
  match s with
  | EmptyString => false
  | String _ s' => includes s' sub
  end.

(** [s.toLowerCase()], code unit by code unit. *)
Definition lower_unit (c : ascii) : ascii :=
  let n := N_of_ascii c in
  if ((65 <=? n) && (n <=? 90)
      || (192 <=? n) && (n <=? 222) && negb (n =? 215))%N
  then ascii_of_N (n + 32) else c.

Fixpoint toLowerCase (s : string) : string :=
  match s with
  | EmptyString => EmptyString
  | String c s' => String (lower_unit c) (toLowerCase s')
  end.

Definition is_digit (c : ascii) : bool :=
  let n := N_of_ascii c in ((48 <=? n) && (n <=? 57))%N.

Definition is_space (c : ascii) : bool :=
  let n := N_of_ascii c in
  ((9 <=? n) && (n <=? 13) || (n =? 32) || (n =? 160))%N.

(** The longest prefix of characters satisfying [p], and what follows. *)
Fixpoint span (p : ascii → bool) (s : string) : string * string :=
  match s with
  | EmptyString => (EmptyString, EmptyString)
  | String c s' =>
      if p c then let '(a, b) := span p s' in (String c a, b)
      else (EmptyString, s)
  end.

Definition trimStart (s : string) : string := snd (span is_space s).

Definition rev_string (s : string) : string :=
  string_of_list_ascii (rev (list_ascii_of_string s)).

(** [s.trim()] *)
Definition trim (s : string) : string :=
  rev_string (trimStart (rev_string (trimStart s))).

(** A [Set]: elements in insertion order, [add] keeps the first insertion. *)
Definition has `{EqDecision K} (k : K) (s : list K) : bool :=
  bool_decide (k ∈ s).

Definition add `{EqDecision K} (k : K) (s : list K) : list K :=
  if has k s then s else s ++ [k].

(** [new Set(array)] *)
Definition Set_of `{EqDecision K} (xs : list K) : list K :=
  foldl (λ s k, add k s) [] xs.

(** What [JSON.parse] returns. *)
#[local] Unset Elimination Schemes.
Inductive json : Type :=
| JNull
| JBool (b : bool)
| JNumber (x : Q)
| JString (s : string)
| JArray (items : list json)
| JObject (members : list (string * json)).
#[local] Set Elimination Schemes.

(** Own property of a parsed object; a repeated key keeps its last value. *)
Fixpoint own_property (members : list (string * json)) (key : string)
  : option json :=
  match members with
  | [] => None
  | (k, v) :: rest =>
      match own_property rest key with
      | Some v' => Some v'
      | None => if String.eqb k key then Some v else None
      end
  end.

Definition json_truthy (v : json) : bool :=
  match v with
  | JNull => false
  | JBool b => b
  | JNumber x => negb (Qnum x =? 0)
  | JString s => negb (String.eqb s "")
  | JArray _ | JObject _ => true
  end.





(** The library calls [isAudioOnly] makes: [new URL(url)],
    [u.searchParams.get(name)], [Buffer.from(s, 'base64').toString('utf8')]
    and [JSON.parse(text)].  Only the first and the last can throw. *)
Record Runtime : Type := {
  URL : Type;
  URL_new : string → completion URL;
  searchParams_get : URL → string → option string;
  Buffer_base64_utf8 : string → string;
  JSON_parse : string → completion json;
}.

End Js.

Import Js.

(** ** services/videoProcessor.js *)

Module VideoProcessor.

Section Classifier.
Context (rt : Runtime).

(** [decoded.encode_tag]: reading a property of [null] throws; a parsed
    primitive or array has no such property. *)
Definition read_encode_tag (decoded : json) : completion (option json) :=
  match decoded with
  | JNull => Throw "Cannot read properties of null (reading 'encode_tag')"
  | JObject members => Normal (own_property members "encode_tag")
  | _ => Normal None
  end.

(** [(x || '')] *)
Definition or_empty (x : option json) : json :=
  match x with
  | Some v => if json_truthy v then v else JString ""
  | None => JString ""
  end.

(** [x.toLowerCase()]: only a string has the method. *)
Definition call_toLowerCase (x : json) : completion string :=
  match x with
  | JString s => Normal (toLowerCase s)
  | _ => Throw "(decoded.encode_tag || '').toLowerCase is not a function"
  end.

(** The body of the [try] block of [isAudioOnly]. *)
Definition isAudioOnly_try (url : string) : completion bool :=
  if includes url "/m78/" then Normal true
  else if includes url "/m367/" then Normal false
  else
    u ← URL_new rt url;
    match searchParams_get rt u "efg" with
    | None => Normal false
    | Some efg =>
        if String.eqb efg "" then Normal false
        else
          decoded ← JSON_parse rt (Buffer_base64_utf8 rt efg);
          raw ← read_encode_tag decoded;
          tag ← call_toLowerCase (or_empty raw);
          Normal (includes tag "audio"
                  && negb (includes tag "vp9")
                  && negb (includes tag "avc"))
    end.

Definition isAudioOnly (url : string) : bool :=
  catch_default (isAudioOnly_try url) false.





End Classifier.

(** The file system, as far as the sources use it: the regular files, each
    shorter than 2^53 bytes; a file under [process.cwd()] by its path
    relative to that directory, another file by its absolute path.  A call
    on a file fails only when the file it names is absent. *)
Abbreviation bytes := (list Byte.byte).
Abbreviation files := (gmap string bytes).

(** [path.join(dir, name)] for a directory of the process and a name built
    from the identifier of [uuidv4()], which holds no separator: there is
    nothing to normalise. *)
Definition path_join (dir name : string) : string := dir +:+ "/" +:+ name.
Definition VIDEO_STORIES_DIR : string := "video_stories".
Definition TEMP_DIR : string := "temp_media".

(** How the spawned [ffmpeg] process ends: the ['close'] event with its exit
    code ([null] when a signal killed it) and what it left at the output
    path, or the ['error'] event. *)
Inductive ffmpeg_event : Type :=
| Close (code : option Z) (written : option bytes)
| SpawnError (message : string).

(** What one [processStory] call gets from outside: the identifier drawn by
    [uuidv4()], which is made of hexadecimal digits and dashes and so holds
    no separator, the in-page [fetch] of the session ([None]: it threw) and
    the [ffmpeg] run on the contents of its two inputs. *)
Record World : Type := {
  uuidv4 : string;
  uuidv4_name : includes uuidv4 "/" = false;
  fetch : string → option bytes;
  ffmpeg : option bytes → option bytes → ffmpeg_event;
}.

Definition downloadFile (w : World) (url destination : string) (fs : files)
  : bool * files :=
  match fetch w url with
  | Some data => (true, <[destination := data]> fs)
  | None => (false, fs)
  end.

Definition copyFile (src dest : string) (fs : files)
  : completion unit * files :=
  match fs !! src with
  | Some data => (Normal (), <[dest := data]> fs)
  | None => (Throw ("ENOENT: no such file or directory, copyfile " +:+ src), fs)
  end.

Definition unlink (path : string) (fs : files) : completion unit * files :=
  match fs !! path with
  | Some _ => (Normal (), delete path fs)
  | None => (Throw ("ENOENT: no such file or directory, unlink " +:+ path), fs)
  end.

(** [`${code}`] *)
Definition show_code (code : option Z) : string :=
  match code with Some n => pretty n | None => "null" end.

Definition combineVideoAudio (w : World) (videoPath audioPath outputPath : string)
    (fs : files) : completion unit * files :=
  match ffmpeg w (fs !! videoPath) (fs !! audioPath) with
  | Close code written =>
      let fs' := match written with
                 | Some out => <[outputPath := out]> fs
                 | None => fs
                 end in
      match code with
      | Some 0 => (Normal (), fs')
      | _ => (Throw ("ffmpeg failed with exit code " +:+ show_code code), fs')
      end
  | SpawnError message => (Throw ("ffmpeg spawn error: " +:+ message), fs)
  end.

(** [{ success: true, videoId, localPath, url }] or
    [{ success: false, error }] *)
Inductive ProcessResult : Type :=
| Success (videoId localPath url : string)
| Failure (error : string).

Definition success (r : ProcessResult) : bool :=
  match r with Success _ _ _ => true | Failure _ => false end.

(** The [catch] block of [processStory]: every unlink swallows its error. *)
Definition processStory_catch (message videoPath audioPath outputPath : string)
    (fs : files) : ProcessResult * files :=
  let fs := snd (unlink videoPath fs) in
  let fs := snd (unlink audioPath fs) in
  let fs := snd (unlink outputPath fs) in
  (Failure message, fs).

(** The temp-file clean-up after a good run: one [try], errors ignored. *)
Definition cleanup_temp (audioUrl : value) (videoPath audioPath : string)
    (fs : files) : files :=
  match unlink videoPath fs with
  | (Normal _, fs1) =>
      if truthy audioUrl then snd (unlink audioPath fs1) else fs1
  | (Throw _, fs1) => fs1
  end.

(** The three paths [processStory] builds from the identifier. *)
Definition videoPath_of (videoId : string) : string :=
  path_join TEMP_DIR (videoId +:+ "_video.mp4").
Definition audioPath_of (videoId : string) : string :=
  path_join TEMP_DIR (videoId +:+ "_audio.m4a").
Definition outputPath_of (videoId : string) : string :=
  path_join VIDEO_STORIES_DIR (videoId +:+ ".mp4").

Definition processStory (w : World) (videoUrl : string) (audioUrl : value)
    (fs : files) : ProcessResult * files :=
  let videoId := uuidv4 w in
  let videoPath := videoPath_of videoId in
  let audioPath := audioPath_of videoId in
  let outputPath := outputPath_of videoId in
  let '(videoDownloaded, fs1) := downloadFile w videoUrl videoPath fs in
  if negb videoDownloaded
  then processStory_catch "Failed to download video"
         videoPath audioPath outputPath fs1
  else
    let '(produced, fs2) :=
      match truthy_string audioUrl with
      | Some a =>
          let '(audioDownloaded, fs') := downloadFile w a audioPath fs1 in
          if audioDownloaded
          then combineVideoAudio w videoPath audioPath outputPath fs'
          else copyFile videoPath outputPath fs'
      | None => copyFile videoPath outputPath fs1
      end in
    match produced with
    | Throw message =>
        processStory_catch message videoPath audioPath outputPath fs2
    | Normal _ =>
        (Success videoId outputPath ("/videos/" +:+ videoId +:+ ".mp4"),
         cleanup_temp audioUrl videoPath audioPath fs2)
    end.

End VideoProcessor.

(** ** The story record

    The object pushed by the scraper and read by the tracker.  The two time
    stamps keep the clock reading in milliseconds instead of its ISO text;
    a key the image branch leaves out is [undefined]. *)

Module Story.

Record StoryItem : Type := {
  ig_pk : value;
  username : string;
  caption : value;
  media_type : Z;
  is_video : bool;
  taken_at : Z;
  expires_at : Z;
  media_url : value;
  original_video_url : value;
  original_audio_url : value;
  local_video_id : value;
  thumbnail_url : value;
  permalink : string;
  story_link : value;
}.

End Story.

(** ** services/storyTracker.js *)

Module Tracker.

(** The parsed tracker file. *)
Record Ledger : Type := {
  username : string;
  processed_ids : option (list value);
  last_updated : option Z;
}.

Section StoryTracker.
(** [this.username]; the file of that account holds [file] ([None]: there is
    no readable file).  Writing the file succeeds. *)
Context (this_username : string).

Definition load (file : option Ledger) : Ledger :=
  match file with
  | Some tracker => tracker
  | None => {| username := this_username;
               processed_ids := Some [];
               last_updated := None |}
  end.

(** An identifier as [JSON.parse] reads it back after [JSON.stringify] wrote
    it as an element of an array: [undefined] is written as [null]. *)
Definition written (id : value) : value :=
  match id with
  | undefined => null
  | _ => id
  end.

(** [save] stamps the tracker and writes it with [JSON.stringify]: the
    result is the new file, as the next [load] parses it. *)
Definition save (now : Z) (tracker : Ledger) : option Ledger :=
  Some {| username := username tracker;
          processed_ids := map written <$> processed_ids tracker;
          last_updated := Some now |}.

(** [tracker.processed_ids || []] *)
Definition ids_or_empty (tracker : Ledger) : list value :=
  default [] (processed_ids tracker).

Definition getProcessedIds (file : option Ledger) : list value :=
  Set_of (ids_or_empty (load file)).

Definition addStoryIds (now : Z) (storyIds : list value) (file : option Ledger)
  : option Ledger :=
  let tracker := load file in
  let currentIds :=
    foldl (λ ids id, if has id ids then ids else add id ids)
          (Set_of (ids_or_empty tracker)) storyIds in
  save now {| username := username tracker;
              processed_ids := Some currentIds;
              last_updated := last_updated tracker |}.

(** [story.ig_pk || story.media_url] *)
Definition story_id (story : Story.StoryItem) : value :=
  or_else (Story.ig_pk story) (Story.media_url story).

(** One turn of the [for] loop of [filterProcessedStories], on the pair
    ([seenPks], [newStories]). *)
Definition filter_step (processedIds : list value)
    (acc : list value * list Story.StoryItem) (story : Story.StoryItem)
  : list value * list Story.StoryItem :=
  let '(seenPks, newStories) := acc in
  let storyId := story_id story in
  if has storyId seenPks then acc
  else
    let seenPks := add storyId seenPks in
    if has storyId processedIds then (seenPks, newStories)
    else (seenPks, newStories ++ [story]).

Definition filterProcessedStories (file : option Ledger)
    (stories : list Story.StoryItem) : list Story.StoryItem :=
  let processedIds := getProcessedIds file in
  snd (foldl (filter_step processedIds) ([], []) stories).

Definition markAsProcessed (now : Z) (stories : list Story.StoryItem)
    (file : option Ledger) : option Ledger :=
  let storyIds := List.filter truthy (map story_id stories) in
  addStoryIds now storyIds file.




End StoryTracker.

(** The ledger operations in the words of the design: duplicates inside the
    batch go first (the first item of each identifier stays), then the
    identifiers of the persisted set. *)
Fixpoint first_occurrences (seen : list value) (stories : list Story.StoryItem)
  : list Story.StoryItem :=
  match stories with
  | [] => []
  | story :: rest =>
      if has (story_id story) seen then first_occurrences seen rest
      else story :: first_occurrences (story_id story :: seen) rest
  end.

Definition not_persisted (persisted : list value) (story : Story.StoryItem)
  : bool :=
  negb (has (story_id story) persisted).

Definition filterNew (persisted : list value) (candidates : list Story.StoryItem)
  : list Story.StoryItem :=
  List.filter (not_persisted persisted) (first_occurrences [] candidates).

End Tracker.

(** ** services/instagramScraper.js *)

Module Scraper.
Import VideoProcessor.

Record Config : Type := {
  igTargetUsername : string;
  instagramUrl : string;
  SERVER_URL : string;
}.

(** [currentStoryMedia] *)
Record Slot : Type := { video : value; audio : value }.

(** What the request listener owns: the two [Set]s and the slot. *)
Record Interceptor : Type := {
  capturedVideos : list string;
  capturedAudios : list string;
  currentStoryMedia : Slot;
}.

Definition empty_slot : Slot := {| video := null; audio := null |}.

Definition fresh_interceptor : Interceptor :=
  {| capturedVideos := []; capturedAudios := []; currentStoryMedia := empty_slot |}.

(** *** Regular expressions of the listener and of the loop *)

(** [s] starts with [lit]: what follows it. *)
Definition after_literal (lit s : string) : option string :=
  if startsWith s lit then Some (drop_units (String.length lit) s) else None.

(** [\d+] at the head of [s]: the digits and what follows them. *)
Definition digits1 (s : string) : option (string * string) :=
  let '(d, rest) := span is_digit s in
  if String.eqb d "" then None else Some (d, rest).

(** [lead\d+&byteend=\d+trail] at the head of [s]: what follows the match. *)
Definition match_byte_range (lead trail s : string) : option string :=
  s1 ← after_literal lead s;
  '(_, s2) ← digits1 s1;
  s3 ← after_literal "&byteend=" s2;
  '(_, s4) ← digits1 s3;
  after_literal trail s4.

(** [s.replace(/re/g, by)] for a pattern [re] matched at a position by [m];
    a match is never empty, so [String.length s] turns are enough. *)
Fixpoint replace_from (turns : nat) (m : string → option string)
    (by_ s : string) : string :=
  match turns with
  | O => s
  | S turns' =>
      match m s with
      | Some rest => by_ +:+ replace_from turns' m by_ rest
      | None =>
          match s with
          | EmptyString => EmptyString
          | String c s' => String c (replace_from turns' m by_ s')
          end
      end
  end.

Definition replace_all (m : string → option string) (by_ s : string) : string :=
  replace_from (String.length s) m by_ s.

(** The three [replace] calls that remove the byte-range parameters. *)
Definition cleanUrl_of (url : string) : string :=
  let cleanUrl := replace_all (match_byte_range "&bytestart=" "") "" url in
  let cleanUrl := replace_all (match_byte_range "?bytestart=" "&") "?" cleanUrl in
  replace_all (match_byte_range "?bytestart=" "") "" cleanUrl.

(** [/stories\/[^/]+\/(\d+)/] at the head of [s]: the captured group. *)
Definition match_story_here (s : string) : option string :=
  s1 ← after_literal "stories/" s;
  let '(segment, s2) := span (λ c, negb (Ascii.eqb c "/")) s1 in
  if String.eqb segment "" then None
  else
    s3 ← after_literal "/" s2;
    '(pk, _) ← digits1 s3;
    Some pk.

(** [url.match(...)]: the leftmost match; [urlMatch ? urlMatch[1] : null]. *)
Fixpoint storyPk_of (url : string) : option string :=
  match match_story_here url with
  | Some pk => Some pk
  | None =>
      match url with
      | EmptyString => None
      | String _ url' => storyPk_of url'
      end
  end.

(** *** The DOM read by [page.evaluate] *)

Record VideoElement : Type := {
  src : string;
  offsetParent_null : bool;
  poster : string;
}.

(** The [video] elements, the [textContent] of the [span]s and the [href] of
    the [a[href]] elements, in document order. *)
Record Dom : Type := {
  videos : list VideoElement;
  spans : list string;
  links : list string;
}.

Record Content : Type := {
  isVideo : bool;
  caption : value;
  link : value;
  posterUrl : value;
}.

Definition visible_video (v : VideoElement) : bool :=
  negb (String.eqb (src v) "") && negb (offsetParent_null v).

Definition caption_text (text : string) : bool :=
  negb (String.eqb text "")
  && (5 <? String.length text)%nat && (String.length text <? 500)%nat
  && negb (includes text "Close") && negb (includes text "More")
  && negb (includes text "View") && negb (includes text "Follow").

Definition outbound_link (href : string) : bool :=
  negb (String.eqb href "")
  && negb (includes href "instagram.com") && negb (startsWith href "#").

Definition of_found (x : option string) : value :=
  match x with Some s => str s | None => null end.

(** The function evaluated in the page. *)
Definition evaluate_content (d : Dom) : Content :=
  let found := List.find visible_video (videos d) in
  {| isVideo := match found with Some _ => true | None => false end;
     caption := of_found (List.find caption_text (map trim (spans d)));
     link := of_found (List.find outbound_link (links d));
     posterUrl := match found with Some v => str (poster v) | None => null end |}.

(** *** The request listener *)

Section Walk.
Context (rt : Runtime) (cfg : Config).

Definition is_media_request (url : string) : bool :=
  (includes url "fbcdn.net" || includes url "cdninstagram.com")
  && includes url ".mp4".

(** The callback of [page.on('request', ...)], on the URL of the request. *)
Definition on_request (i : Interceptor) (url : string) : Interceptor :=
  if is_media_request url then
    let cleanUrl := cleanUrl_of url in
    if isAudioOnly rt cleanUrl then
      if has cleanUrl (capturedAudios i) then i
      else {| capturedVideos := capturedVideos i;
              capturedAudios := add cleanUrl (capturedAudios i);
              currentStoryMedia :=
                {| video := video (currentStoryMedia i); audio := str cleanUrl |} |}
    else
      if has cleanUrl (capturedVideos i) then i
      else {| capturedVideos := add cleanUrl (capturedVideos i);
              capturedAudios := capturedAudios i;
              currentStoryMedia :=
                {| video := str cleanUrl; audio := audio (currentStoryMedia i) |} |}
  else i.

(** [currentStoryMedia.video = null; currentStoryMedia.audio = null] *)
Definition reset_slot (i : Interceptor) : Interceptor :=
  {| capturedVideos := capturedVideos i;
     capturedAudios := capturedAudios i;
     currentStoryMedia := empty_slot |}.

(** The states of the listener during a walk: requests arrive in any order
    and number, and the loop resets the slot between them. *)
Inductive listening : Interceptor → Prop :=
| listening_start : listening fresh_interceptor
| listening_request i url : listening i → listening (on_request i url)
| listening_reset i : listening i → listening (reset_slot i).

(** *** The story loop of [extractStoryDataFromPage] *)

(** The variables the loop reads and writes, [this.seenPks] and the files. *)
Record WalkState : Type := {
  stories : list Story.StoryItem;
  interceptor : Interceptor;
  storyIndex : nat;
  noContentCount : nat;
  lastUrl : string;
  seenPks : list value;
  disk : files;
}.

(** What the browser and the clock give during one turn of the loop: the
    requests the listener saw since the previous turn read the slot, the
    wait of 1500 ms, [page.url()], [page.evaluate(...)], the collaborators
    of [processStory], [new Date()] and [Date.now()], and the key press
    with its wait of 600 ms. *)
Record Cycle : Type := {
  requests : list string;
  settle : completion unit;
  location : string;
  page_dom : completion Dom;
  world : World;
  clock_taken : Z;
  clock_expiry : Z;
  advance : completion unit;
}.

(** How one turn ends: on to the loop test, [break], or an exception that
    leaves the loop for the outer [catch]. *)
Inductive Step : Type :=
| Continue (st : WalkState)
| Break (st : WalkState)
| Raise (message : string).

Definition permalink_of (pk : string) : string :=
  instagramUrl cfg +:+ "/stories/" +:+ igTargetUsername cfg +:+ "/" +:+ pk +:+ "/".

Definition day_ms : Z := 24 * 60 * 60 * 1000.

Definition video_story (c : Cycle) (pk : string) (content : Content)
    (videoUrl : string) (audioUrl : value) (processResult : ProcessResult)
  : Story.StoryItem :=
  let finalMediaUrl :=
    match processResult with
    | Success _ _ url => SERVER_URL cfg +:+ url
    | Failure _ => videoUrl
    end in
  let localVideoId :=
    match processResult with
    | Success videoId _ _ => str videoId
    | Failure _ => null
    end in
  {| Story.ig_pk := str pk;
     Story.username := igTargetUsername cfg;
     Story.caption := caption content;
     Story.media_type := 2;
     Story.is_video := true;
     Story.taken_at := clock_taken c;
     Story.expires_at := clock_expiry c + day_ms;
     Story.media_url := str finalMediaUrl;
     Story.original_video_url := str videoUrl;
     Story.original_audio_url := audioUrl;
     Story.local_video_id := localVideoId;
     Story.thumbnail_url := or_else (posterUrl content) (str videoUrl);
     Story.permalink := permalink_of pk;
     Story.story_link := link content |}.

Definition image_story (c : Cycle) (pk : string) (content : Content)
    (imageUrl : value) : Story.StoryItem :=
  {| Story.ig_pk := str pk;
     Story.username := igTargetUsername cfg;
     Story.caption := caption content;
     Story.media_type := 1;
     Story.is_video := false;
     Story.taken_at := clock_taken c;
     Story.expires_at := clock_expiry c + day_ms;
     Story.media_url := imageUrl;
     Story.original_video_url := undefined;
     Story.original_audio_url := undefined;
     Story.local_video_id := undefined;
     Story.thumbnail_url := imageUrl;
     Story.permalink := permalink_of pk;
     Story.story_link := link content |}.

(** [videoArray[videoArray.length - 1]], else the poster. *)
Definition select_imageUrl (captured : list string) (content : Content) : value :=
  match last captured with
  | Some url => str url
  | None =>
      match posterUrl content with
      | str p => if negb (String.eqb p "") && negb (startsWith p "blob:")
                 then str p else null
      | _ => null
      end
  end.

(** [storyPk && this.seenPks.has(storyPk)] *)
Definition already_seen (storyPk : option string) (seen : list value) : bool :=
  match storyPk with
  | Some pk => has (str pk) seen
  | None => false
  end.

Definition count_idle (st : WalkState) : WalkState :=
  {| stories := stories st; interceptor := interceptor st;
     storyIndex := storyIndex st; noContentCount := S (noContentCount st);
     lastUrl := lastUrl st; seenPks := seenPks st; disk := disk st |}.

(** [this.seenPks.add(storyPk); ...; stories.push(item)] *)
Definition emit (pk : string) (item : Story.StoryItem) (fs : files)
    (st : WalkState) : WalkState :=
  {| stories := stories st ++ [item]; interceptor := interceptor st;
     storyIndex := storyIndex st; noContentCount := noContentCount st;
     lastUrl := lastUrl st; seenPks := add (str pk) (seenPks st); disk := fs |}.

(** The body of [if (videoUrl && storyPk && content.isVideo)]. *)
Definition video_branch (c : Cycle) (pk : string) (content : Content)
    (videoUrl : string) (audioUrl : value) (st : WalkState) : WalkState :=
  if negb (has (str pk) (seenPks st)) then
    let '(processResult, fs) :=
      processStory (world c) videoUrl audioUrl (disk st) in
    emit pk (video_story c pk content videoUrl audioUrl processResult) fs st
  else st.

(** The body of [else if (storyPk && !content.isVideo)]. *)
Definition image_branch (c : Cycle) (pk : string) (content : Content)
    (st : WalkState) : WalkState :=
  let imageUrl := select_imageUrl (capturedVideos (interceptor st)) content in
  if truthy imageUrl && negb (has (str pk) (seenPks st))
  then emit pk (image_story c pk content imageUrl) (disk st) st
  else count_idle st.

(** The [if / else if / else] on the story just read; [videoUrl] and
    [audioUrl] are the slot as it was before its reset. *)
Definition evaluate_story (c : Cycle) (storyPk : option string)
    (content : Content) (videoUrl audioUrl : value) (st : WalkState)
  : WalkState :=
  match storyPk with
  | Some pk =>
      match (if isVideo content then truthy_string videoUrl else None) with
      | Some v => video_branch c pk content v audioUrl st
      | None =>
          if negb (isVideo content) then image_branch c pk content st
          else count_idle st
      end
  | None => count_idle st
  end.

(** [storyIndex++] and the key press guarded by [noContentCount < 3]. *)
Definition go_next (c : Cycle) (st : WalkState) : Step :=
  let st :=
    {| stories := stories st; interceptor := interceptor st;
       storyIndex := S (storyIndex st); noContentCount := noContentCount st;
       lastUrl := lastUrl st; seenPks := seenPks st; disk := disk st |} in
  if (noContentCount st <? 3)%nat then
    match advance c with
    | Normal _ => Continue st
    | Throw _ => Break st
    end
  else Continue st.

(** [currentUrl2 === lastUrl && storyIndex > 0] *)
Definition location_unchanged (currentUrl2 : string) (st : WalkState) : bool :=
  String.eqb currentUrl2 (lastUrl st) && (0 <? storyIndex st)%nat.

(** One turn of [while (noContentCount < 3)]. *)
Definition iteration (c : Cycle) (st : WalkState) : Step :=
  let heard := foldl on_request (interceptor st) (requests c) in
  match settle c with
  | Throw message => Raise message
  | Normal _ =>
      let currentUrl2 := location c in
      let unchanged := location_unchanged currentUrl2 st in
      let lastUrl' := if unchanged then lastUrl st else currentUrl2 in
      let count := if unchanged then S (noContentCount st) else O in
      let storyPk := storyPk_of currentUrl2 in
      if already_seen storyPk (seenPks st) then
        go_next c
          {| stories := stories st; interceptor := heard;
             storyIndex := storyIndex st; noContentCount := count;
             lastUrl := lastUrl'; seenPks := seenPks st; disk := disk st |}
      else
        match page_dom c with
        | Throw message => Raise message
        | Normal d =>
            let content := evaluate_content d in
            let videoUrl := video (currentStoryMedia heard) in
            let audioUrl := audio (currentStoryMedia heard) in
            go_next c
              (evaluate_story c storyPk content videoUrl audioUrl
                 {| stories := stories st; interceptor := reset_slot heard;
                    storyIndex := storyIndex st; noContentCount := count;
                    lastUrl := lastUrl'; seenPks := seenPks st; disk := disk st |})
        end
  end.

(** The loop, for at most [turns] turns; [None]: still running after them.
    The turn that starts with [storyIndex = k] gets [env k]. *)
Fixpoint story_loop (turns : nat) (env : nat → Cycle) (st : WalkState)
  : option (completion WalkState) :=
  if (noContentCount st <? 3)%nat then
    match turns with
    | O => None
    | S turns' =>
        match iteration (env (storyIndex st)) st with
        | Continue st' => story_loop turns' env st'
        | Break st' => Some (Normal st')
        | Raise message => Some (Throw message)
        end
    end
  else Some (Normal st).

(** Every pushed story carries a text identifier that is in
    [this.seenPks], and no two carry the same. *)
Definition identified (st : WalkState) : Prop :=
  NoDup (map Story.ig_pk (stories st))
  ∧ ∀ item, item ∈ stories st →
      ∃ pk, Story.ig_pk item = str pk ∧ str pk ∈ seenPks st.

(** What one turn that does not throw does to the variables of the loop:
    the index moves by one; on an unchanged location the idle count grows,
    on a new one the location is remembered. *)
Definition turn_effect (c : Cycle) (st st' : WalkState) : Prop :=
  storyIndex st' = S (storyIndex st)
  ∧ lastUrl st' = (if location_unchanged (location c) st
                   then lastUrl st else location c)
  ∧ ((if location_unchanged (location c) st
      then S (noContentCount st) else O) ≤ noContentCount st')%nat
  ∧ (identified st → identified st').

(** What the two pushes put into a story: the digits of the location as
    identifier, the configured account, the permalink of the identifier, a
    non-empty media URL and thumbnail; for a video the captured URL and
    either the local artifact or the captured URL as media URL; for an image
    the same URL as media and as thumbnail. *)
Definition well_formed (item : Story.StoryItem) : Prop :=
  ∃ pk,
    Story.ig_pk item = str pk
    ∧ pk ≠ "" ∧ span is_digit pk = (pk, "")
    ∧ Story.username item = igTargetUsername cfg
    ∧ Story.permalink item = permalink_of pk
    ∧ truthy (Story.media_url item) = true
    ∧ truthy (Story.thumbnail_url item) = true
    ∧ ((Story.is_video item = true ∧ Story.media_type item = 2
        ∧ truthy (Story.original_video_url item) = true
        ∧ ((Story.local_video_id item = null
            ∧ Story.media_url item = Story.original_video_url item)
           ∨ ∃ id, Story.local_video_id item = str id
                   ∧ Story.media_url item
                     = str (SERVER_URL cfg +:+ "/videos/" +:+ id +:+ ".mp4")))
       ∨ (Story.is_video item = false ∧ Story.media_type item = 1
          ∧ Story.thumbnail_url item = Story.media_url item
          ∧ Story.local_video_id item = undefined)).

(** What a turn can do to the batch and to [this.seenPks]: nothing (and
    then the files are left alone too), or one push of a story of the
    location's identifier, which was not seen before and is seen afterwards. *)
Definition one_push (c : Cycle) (st st' : WalkState) : Prop :=
  (stories st' = stories st ∧ seenPks st' = seenPks st ∧ disk st' = disk st)
  ∨ ∃ pk item,
      storyPk_of (location c) = Some pk
      ∧ has (str pk) (seenPks st) = false
      ∧ (∃ d, page_dom c = Normal d)
      ∧ stories st' = stories st ++ [item]
      ∧ seenPks st' = seenPks st ++ [str pk]
      ∧ Story.ig_pk item = str pk
      ∧ well_formed item.

(** What a run of turns from [st] to [st'] has pushed: the stories [news],
    appended to the batch and, by identifier, to [this.seenPks]; each of
    them well formed, new with respect to the identifiers seen at [st],
    different from the others, and at most one per turn. *)
Definition pushed (st st' : WalkState) (news : list Story.StoryItem) : Prop :=
  stories st' = stories st ++ news
  ∧ seenPks st' = seenPks st ++ map Story.ig_pk news
  ∧ Forall well_formed news
  ∧ (∀ item, item ∈ news → Story.ig_pk item ∉ seenPks st)
  ∧ NoDup (map Story.ig_pk news)
  ∧ (storyIndex st + length news ≤ storyIndex st')%nat.

(** The state the loop starts from: [this.seenPks] is filled from the
    tracker file of the target account when it is empty. *)
Definition initial_state (this_seenPks : list value)
    (ledger : option Tracker.Ledger) (fs : files) : WalkState :=
  {| stories := []; interceptor := fresh_interceptor;
     storyIndex := O; noContentCount := O; lastUrl := "";
     seenPks := match this_seenPks with
                | [] => Tracker.getProcessedIds (igTargetUsername cfg) ledger
                | _ => this_seenPks
                end;
     disk := fs |}.

(** [extractStoryDataFromPage]: the array it returns ([None]: the loop is
    still running after [turns] turns).  [entryUrl] is [page.url()] on entry. *)
Definition extractStoryDataFromPage (turns : nat) (entryUrl : string)
    (this_seenPks : list value) (ledger : option Tracker.Ledger)
    (env : nat → Cycle) (fs : files) : option (list Story.StoryItem) :=
  if negb (includes entryUrl "/stories/") then Some []
  else
    match story_loop turns env (initial_state this_seenPks ledger fs) with
    | None => None
    | Some (Normal st) => Some (stories st)
    | Some (Throw _) => Some []
    end.

End Walk.

End Scraper.

(** ** server.js *)

Module Server.
Import VideoProcessor.

(** *** Paths *)

(** [s.split(sep)] for a separator of one character: the first part and
    the parts after it. *)
Fixpoint split_on (sep : ascii) (s : string) : string * list string :=
  match s with
  | EmptyString => (EmptyString, [])
  | String c s' =>
      let '(part, parts) := split_on sep s' in
      if Ascii.eqb c sep then (EmptyString, part :: parts)
      else (String c part, parts)
  end.

(** One segment of a path in [path.normalize], on the directories walked so
    far, the innermost first: an empty segment and [.] stay where they are,
    [..] leaves the innermost directory and stays at the root, a name goes
    down. *)
Definition descend (walked : list string) (segment : string) : list string :=
  if String.eqb segment "" || String.eqb segment "." then walked
  else if String.eqb segment ".." then tail walked
  else segment :: walked.

(** [path.join(dir, name)] on POSIX, for an absolute normalised directory
    given by its names from the root down and a [name] that does not end
    with a separator: the names of the result from the root down. *)
Definition join_under (dir : list string) (name : string) : list string :=
  let '(first, others) := split_on "/" name in
  rev (foldl descend (rev dir) (first :: others)).

(** [path = dir/rest]: the [rest]. *)
Fixpoint below (dir path : list string) : option (list string) :=
  match dir, path with
  | [], _ => Some path
  | d :: dir', p :: path' => if String.eqb d p then below dir' path' else None
  | _ :: _, [] => None
  end.

Fixpoint join_names (names : list string) : string :=
  match names with
  | [] => EmptyString
  | [name] => name
  | name :: rest => name +:+ "/" +:+ join_names rest
  end.

(** The key of a file in [files]: its path relative to [process.cwd()] when
    it is below that directory, its absolute path otherwise. *)
Definition file_key (cwd path : list string) : string :=
  match below cwd path with
  | Some (name :: rest) => join_names (name :: rest)
  | _ => "/" +:+ join_names path
  end.

(** [getVideoPath] of videoProcessor.js: [VIDEO_STORIES_DIR] is
    [path.join(process.cwd(), 'video_stories')], and [cwd] holds the names
    of [process.cwd()] from the root down.  The identifier comes from the
    request and may hold separators and [..]. *)
Definition getVideoPath (cwd : list string) (videoId : string) : string :=
  file_key cwd (join_under (cwd ++ [VIDEO_STORIES_DIR]) (videoId +:+ ".mp4")).

(** *** Numbers *)

(** The numbers of the route are doubles; each of them is [NaN], an
    infinity or an integer.  [Int z] is the double that holds the integer
    [z] exactly. *)
Inductive number : Type :=
| NaN
| Infinity (negative : bool)
| Int (z : Z).

(** The double nearest to an integer, ties going to the even significand
    (all integers below 2^53 are doubles). *)
Definition nearest (z : Z) : Z :=
  let a := Z.abs z in
  if a <? 2 ^ 53 then z
  else
    let ulp := 2 ^ (Z.log2 a - 52) in
    let q := a / ulp in
    let r := a mod ulp in
    let q := if (ulp <? 2 * r) || ((2 * r =? ulp) && Z.odd q)
             then q + 1 else q in
    Z.sgn z * (q * ulp).

(** The number value of a mathematical integer. *)
Definition of_integer (z : Z) : number :=
  let d := nearest z in
  if 2 ^ 1024 <=? Z.abs d then Infinity (z <? 0) else Int d.

(** [x - y] and [x + y] *)
Definition minus (x y : number) : number :=
  match x, y with
  | NaN, _ | _, NaN => NaN
  | Infinity a, Infinity b => if Bool.eqb a b then NaN else Infinity a
  | Infinity a, Int _ => Infinity a
  | Int _, Infinity b => Infinity (negb b)
  | Int a, Int b => of_integer (a - b)
  end.

Definition plus (x y : number) : number :=
  match x, y with
  | NaN, _ | _, NaN => NaN
  | Infinity a, Infinity b => if Bool.eqb a b then Infinity a else NaN
  | Infinity a, Int _ => Infinity a
  | Int _, Infinity b => Infinity b
  | Int a, Int b => of_integer (a + b)
  end.

(** The decimal digits [Number::toString] chooses for a double [a] of
    2^53 or more: the value [s * 10^e] with the fewest digits [s] that
    still reads back as [a], the nearest to [a] if there are two, the even
    [s] if they are equally near.  [k] is the number of digits tried. *)
Fixpoint shortest (fuel : nat) (k : Z) (a : Z) : Z :=
  match fuel with
  | O => a
  | S fuel' =>
      let e := Z.of_nat (String.length (pretty a)) - k in
      if e <=? 0 then a
      else
        let p := 10 ^ e in
        let lo := a / p * p in
        let hi := lo + p in
        let ok_lo := nearest lo =? a in
        let ok_hi := nearest hi =? a in
        if ok_lo && ok_hi then
          if a - lo <? hi - a then lo
          else if hi - a <? a - lo then hi
          else if Z.even (a / p) then lo else hi
        else if ok_lo then lo
        else if ok_hi then hi
        else shortest fuel' (k + 1) a
  end.

(** The digits of [v] without the zeros at its end. *)
Fixpoint significand (fuel : nat) (v : Z) : Z :=
  match fuel with
  | O => v
  | S fuel' => if (v mod 10 =? 0) && (0 <? v) then significand fuel' (v / 10) else v
  end.

(** [`${x}`] *)
Definition show_number (x : number) : string :=
  match x with
  | NaN => "NaN"
  | Infinity false => "Infinity"
  | Infinity true => "-Infinity"
  | Int z =>
      let a := Z.abs z in
      let sign := if z <? 0 then "-" else "" in
      if a <=? 2 ^ 53 then sign +:+ pretty a
      else
        let v := shortest 17 1 a in
        let n := String.length (pretty v) in
        if (n <=? 21)%nat then sign +:+ pretty v
        else
          match pretty (significand n v) with
          | String d EmptyString =>
              sign +:+ String d "e+" +:+ pretty (Z.of_nat n - 1)
          | String d more =>
              sign +:+ String d ("." +:+ more) +:+ "e+" +:+ pretty (Z.of_nat n - 1)
          | EmptyString => EmptyString
          end
  end.

Definition digit_value (c : ascii) : Z := Z.of_N (N_of_ascii c) - 48.

Fixpoint digits_value (acc : Z) (s : string) : Z :=
  match s with
  | EmptyString => acc
  | String c s' => digits_value (10 * acc + digit_value c) s'
  end.

(** [parseInt(s, 10)]: the leading white space is dropped, then a sign and
    the longest run of decimal digits are read; the result is the double
    nearest to the integer the digits denote, [NaN] without a digit. *)
Definition parseInt (s : string) : number :=
  let s := trimStart s in
  let '(sign, s) :=
    match s with
    | String "+" s' => (1, s')
    | String "-" s' => (-1, s')
    | _ => (1, s)
    end in
  let '(d, _) := span is_digit s in
  if String.eqb d "" then NaN else of_integer (sign * digits_value 0 d).

(** [s.replace(/lit/, by)]: the first occurrence only. *)
Fixpoint replace_first (lit by_ s : string) : string :=
  if startsWith s lit then by_ +:+ drop_units (String.length lit) s
  else
    match s with
    | EmptyString => EmptyString
    | String c s' => String c (replace_first lit by_ s')
    end.

(** *** The routes *)

(** A bound [fs.createReadStream] accepts: an integer from 0 to 2^53 - 1. *)
Definition safe_index (x : number) : option Z :=
  match x with
  | Int z => if (0 <=? z) && (z <? 2 ^ 53) then Some z else None
  | _ => None
  end.

(** [fs.createReadStream(path, { start, end })] on a file holding [data]:
    it throws [ERR_OUT_OF_RANGE] unless [start] is an integer from 0 to
    2^53 - 1 and [end] is [Infinity] or such an integer not below [start];
    the stream then gives the bytes from [start] to [end] inclusive, or to
    the end of the file. *)
Definition createReadStream_range (data : bytes) (start end_ : number)
  : completion bytes :=
  match safe_index start with
  | None => Throw "ERR_OUT_OF_RANGE"
  | Some s =>
      match end_ with
      | Infinity false => Normal (drop (Z.to_nat s) data)
      | _ =>
          match safe_index end_ with
          | None => Throw "ERR_OUT_OF_RANGE"
          | Some e =>
              if s <=? e
              then Normal (take (Z.to_nat (e - s + 1)) (drop (Z.to_nat s) data))
              else Throw "ERR_OUT_OF_RANGE"
          end
      end
  end.

(** What a response carries: a stream, or the JSON body [{ error }]. *)
Inductive Body : Type :=
| Piped (stream : bytes)
| JsonError (error : string).

Record Response : Type := {
  status : Z;
  headers : list (string * string);
  body : Body;
}.

(** What becomes of a request: a response is sent, or the handler fails
    after [res.writeHead]: its [catch] calls [res.status(500).json], which
    throws [ERR_HTTP_HEADERS_SENT], the promise of the handler rejects and
    nothing is sent to the client. *)
Inductive Reply : Type :=
| Sent (response : Response)
| Rejected (code : string).

(** The headers the middleware sets on every response. *)
Definition cors_headers : list (string * string) :=
  [("Access-Control-Allow-Origin", "*");
   ("Access-Control-Allow-Headers",
    "Origin, X-Requested-With, Content-Type, Accept")].

Definition header (name : string) (r : Response) : option string :=
  snd <$> List.find (λ h, String.eqb (fst h) name) (headers r).

(** The start and the end the route computes from a [Range] header. *)
Definition range_bounds (range : string) (fileSize : Z) : number * number :=
  let '(part0, rest) := split_on "-" (replace_first "bytes=" "" range) in
  let start := parseInt part0 in
  let end_ :=
    match rest with
    | part1 :: _ =>
        if String.eqb part1 "" then minus (Int fileSize) (Int 1)
        else parseInt part1
    | [] => minus (Int fileSize) (Int 1)
    end in
  (start, end_).

(** [end - start + 1] *)
Definition chunk_size (start end_ : number) : number :=
  plus (minus end_ start) (Int 1).

(** [app.get('/stream/:id.mp4', ...)]: [range] is [req.headers.range].
    [stat.size] is the length of the file, which is below 2^53. *)
Definition stream_route (cwd : list string) (fs : files) (id : string)
    (range : value) : Reply :=
  match fs !! getVideoPath cwd id with
  | None =>
      Sent {| status := 404; headers := cors_headers;
              body := JsonError "Video not found" |}
  | Some data =>
      let fileSize := Z.of_nat (length data) in
      match truthy_string range with
      | Some r =>
          let '(start, end_) := range_bounds r fileSize in
          let chunkSize := chunk_size start end_ in
          let head :=
            [("Content-Range",
              "bytes " +:+ show_number start +:+ "-" +:+ show_number end_
              +:+ "/" +:+ pretty fileSize);
             ("Accept-Ranges", "bytes");
             ("Content-Length", show_number chunkSize);
             ("Content-Type", "video/mp4")] in
          match createReadStream_range data start end_ with
          | Normal stream =>
              Sent {| status := 206; headers := cors_headers ++ head;
                      body := Piped stream |}
          | Throw _ => Rejected "ERR_HTTP_HEADERS_SENT"
          end
      | None =>
          Sent {| status := 200;
                  headers := cors_headers ++
                    [("Content-Length", pretty fileSize);
                     ("Content-Type", "video/mp4")];
                  body := Piped data |}
      end
  end.

(** [videoExists] and [deleteVideo] of videoProcessor.js, on the files. *)
Definition videoExists (cwd : list string) (fs : files) (videoId : string)
  : bool :=
  match fs !! getVideoPath cwd videoId with
  | Some _ => true
  | None => false
  end.

Definition deleteVideo (cwd : list string) (videoId : string) (fs : files)
  : bool * files :=
  match unlink (getVideoPath cwd videoId) fs with
  | (Normal _, fs') => (true, fs')
  | (Throw _, fs') => (false, fs')
  end.

(** What [app.delete('/videos/:id', ...)] answers:
    [{ success: true, message: 'Video deleted' }] with status 200, or
    [{ error: 'Video not found' }] with status 404. *)
Inductive DeleteReply : Type :=
| VideoDeleted
| VideoNotFound.

Definition reply_status (r : DeleteReply) : Z :=
  match r with VideoDeleted => 200 | VideoNotFound => 404 end.

Definition delete_route (cwd : list string) (fs : files) (id : string)
  : DeleteReply * files :=
  let '(deleted, fs') := deleteVideo cwd id fs in
  if deleted then (VideoDeleted, fs') else (VideoNotFound, fs').

End Server.

(** ** utils/logger.js *)

Module Logger.

(** [s.substring(0, n)] *)
Fixpoint substring0 (n : nat) (s : string) : string :=
  match n, s with
  | S n', String c s' => String c (substring0 n' s')
  | _, _ => EmptyString
  end.

(** [log]: [iso] is [new Date().toISOString()]; the result is the new
    [logMessages]. *)
Definition format_message (iso message : string) : string :=
  "[" +:+ substring0 19 (Server.replace_first "T" " " iso) +:+ "] " +:+ message.

Definition log (iso message : string) (logMessages : list string)
  : list string :=
  logMessages ++ [format_message iso message].

Definition getLogMessages (logMessages : list string) : list string :=
  logMessages.

(** [xs.slice(start)] for an integer [start]. *)
Definition slice_from {A} (start : Z) (xs : list A) : list A :=
  let len := Z.of_nat (length xs) in
  let k := if start <? 0 then Z.max (len + start) 0 else Z.min start len in
  drop (Z.to_nat k) xs.

(** [getLastLogMessages(count = 50)]: [None] is a call without argument. *)
Definition getLastLogMessages (count : option Z) (logMessages : list string)
  : list string :=
  slice_from (- default 50 count) logMessages.

(** [logMessages.length = 0] *)
Definition clearLogs (logMessages : list string) : list string := [].

End Logger.

(** ** config/env.js *)

Module Env.

(** [process.env]: a variable is [undefined] or a text. *)
Abbreviation environment := (string → value).

Record Config : Type := {
  igUsername : value;
  igPassword : value;
  igTargetUsername : value;
  laravelApiUrl : value;
  laravelApiKey : value;
  proxyUrl : value;
  forceManualLogin : bool;
}.

(** The [config] object, as far as it comes from the environment. *)
Definition config_of (env : environment) : Config :=
  {| igUsername := env "IG_USERNAME";
     igPassword := env "IG_PASSWORD";
     igTargetUsername := env "IG_TARGET_USERNAME";
     laravelApiUrl := env "LARAVEL_API_URL";
     laravelApiKey := env "LARAVEL_API_KEY";
     proxyUrl := env "PROXY_URL";
     forceManualLogin :=
       bool_decide (env "FORCE_MANUAL_LOGIN" = str "true") |}.

(** [config[key]] for the keys [validateConfig] reads. *)
Definition config_get (c : Config) (key : string) : value :=
  if String.eqb key "igUsername" then igUsername c
  else if String.eqb key "igPassword" then igPassword c
  else if String.eqb key "igTargetUsername" then igTargetUsername c
  else undefined.

(** [xs.join(sep)] *)
Fixpoint join (sep : string) (xs : list string) : string :=
  match xs with
  | [] => EmptyString
  | [x] => x
  | x :: rest => x +:+ sep +:+ join sep rest
  end.

Definition required : list string :=
  ["igUsername"; "igPassword"; "igTargetUsername"].

Definition validateConfig (c : Config) : completion bool :=
  let missing := List.filter (λ key, negb (truthy (config_get c key))) required in
  if (0 <? length missing)%nat
  then Throw ("Missing required environment variables: " +:+ join ", " missing)
  else if negb (truthy (laravelApiUrl c)) || negb (truthy (laravelApiKey c))
  then Throw "LARAVEL_API_URL and LARAVEL_API_KEY must be configured"
  else Normal true.

End Env.

(** ** Fixtures for the examples *)

Module Fixtures.
Import VideoProcessor Scraper Tracker Server.

(** A runtime double: [new URL] accepts what has a scheme separator, the
    only search parameter is the text after [?efg=], the decoded text is
    named by its base64 form, and [JSON.parse] knows one descriptor. *)
Fixpoint after_efg (u : string) : option string :=
  match after_literal "?efg=" u with
  | Some v => Some v
  | None => match u with
            | EmptyString => None
            | String _ u' => after_efg u'
            end
  end.

Definition runtime_double : Runtime :=
  {| URL := string;
     URL_new := λ s, if includes s "://" then Normal s else Throw "Invalid URL";
     searchParams_get := λ u name,
       if String.eqb name "efg" then after_efg u else None;
     Buffer_base64_utf8 := λ s, s;
     JSON_parse := λ s,
       if String.eqb s "eyJlbmNvZGVfdGFnIjoiZGFzaF9hdWRpbyJ9"
       then Normal (JObject [("encode_tag", JString "dash_audio")])
       else Throw "Unexpected token in JSON" |}.





Definition cfg0 : Config :=
  {| igTargetUsername := "someone";
     instagramUrl := "https://www.instagram.com";
     SERVER_URL := "http://localhost:3000" |}.

(** Both downloads succeed and [ffmpeg] exits with code 1. *)
Definition world_merge_fails : World :=
  {| uuidv4 := "0f0e"; uuidv4_name := eq_refl;
     fetch := λ url, if String.eqb url "https://v.fbcdn.net/m367/v.mp4"
                     then Some [Byte.x01; Byte.x02]
                     else if String.eqb url "https://v.fbcdn.net/m78/a.mp4"
                     then Some [Byte.x03] else None;
     ffmpeg := λ _ _, Close (Some 1) None |}.


(** The artifact store with one file of 1000 bytes. *)
(** [process.cwd()] of the examples. *)
Definition cwd0 : list string := ["srv"; "insta-story"].

Definition store1000 : files :=
  {[ getVideoPath cwd0 "abc" := repeat Byte.x41 1000 ]}.

(** Downloads succeed and [ffmpeg] writes its two inputs one after the
    other, so that the artifact shows what went into it. *)
Definition world_ok : World :=
  {| uuidv4 := "0f0e"; uuidv4_name := eq_refl;
     fetch := λ url,
       if String.eqb url "https://v.fbcdn.net/m367/111.mp4" then Some [Byte.x11]
       else if String.eqb url "https://v.fbcdn.net/m78/111.mp4" then Some [Byte.xa1]
       else if String.eqb url "https://v.fbcdn.net/m367/222.mp4" then Some [Byte.x22]
       else None;
     ffmpeg := λ v a, Close (Some 0) (Some (default [] v ++ default [] a)) |}.

Definition video_dom : Dom :=
  {| videos := [{| src := "blob:https://www.instagram.com/5d"; offsetParent_null := false;
                   poster := "" |}];
     spans := []; links := [] |}.

Definition image_dom : Dom := {| videos := []; spans := []; links := [] |}.

Definition cycle_at (url : string) (reqs : list string) (d : Dom) : Cycle :=
  {| requests := reqs; settle := Normal (); location := url;
     page_dom := Normal d; world := world_ok;
     clock_taken := 1700000000000; clock_expiry := 1700000000001;
     advance := Normal () |}.

Definition story_111 : string := "https://www.instagram.com/stories/someone/111/".
Definition story_222 : string := "https://www.instagram.com/stories/someone/222/".

(** Story 111 is in the tracker and plays a video with its audio track;
    story 222 is a video whose only request is its video track; then the
    viewer stays on story 222. *)
Definition walk_after_seen (k : nat) : Cycle :=
  match k with
  | O => cycle_at story_111 ["https://v.fbcdn.net/m78/111.mp4?bytestart=0&byteend=9";
                             "https://v.fbcdn.net/m367/111.mp4?bytestart=0&byteend=9"]
           video_dom
  | 1%nat => cycle_at story_222 ["https://v.fbcdn.net/m367/222.mp4?bytestart=0&byteend=9"]
               video_dom
  | _ => cycle_at story_222 [] video_dom
  end.

(** Story 111 is a video; story 222 is an image during which no request is
    seen; then the viewer stays on story 222. *)
Definition walk_video_then_image (k : nat) : Cycle :=
  match k with
  | O => cycle_at story_111 ["https://v.fbcdn.net/m367/111.mp4?bytestart=0&byteend=9"]
           video_dom
  | _ => cycle_at story_222 [] image_dom
  end.

(** The viewer never leaves story 222, an image, and one video request is
    seen at the start. *)
Definition walk_stuck (k : nat) : Cycle :=
  match k with
  | O => cycle_at story_222 ["https://v.fbcdn.net/m367/222.mp4"] image_dom
  | _ => cycle_at story_222 [] image_dom
  end.

Definition story_333 : string := "https://www.instagram.com/stories/someone/333/".

(** A later visit: stories 111 and 222 are shown again, then story 333, a
    video whose download fails; then the viewer stays on story 333. *)
Definition walk_new_story (k : nat) : Cycle :=
  match k with
  | O => cycle_at story_111 [] video_dom
  | 1%nat => cycle_at story_222 [] image_dom
  | 2%nat => cycle_at story_333 ["https://v.fbcdn.net/m367/333.mp4?bytestart=0&byteend=9"]
               video_dom
  | _ => cycle_at story_333 [] video_dom
  end.

(** The viewer alternates between stories 111 and 222 for six turns and
    then stays on story 222; reading the page would throw, and the key press
    is rejected from the eighth turn on. *)
Definition walk_closed_page (k : nat) : Cycle :=
  {| requests := []; settle := Normal ();
     location := if (k <? 6)%nat && Nat.even k then story_111 else story_222;
     page_dom := Throw "Execution context was destroyed";
     world := world_ok;
     clock_taken := 1700000000000; clock_expiry := 1700000000001;
     advance := if (k <? 7)%nat then Normal () else Throw "Target closed" |}.



(** The tracker file of the account with story 111 in it. *)
Definition ledger_111 : option Ledger :=
  Some {| username := "someone"; processed_ids := Some [str "111"];
          last_updated := Some 1700000000000 |}.

End Fixtures.

(** * Properties *)

Import VideoProcessor Scraper Tracker Server.

(** ** Values *)

Lemma truthy_string_str (r : string) : r ≠ "" → truthy_string (str r) = Some r.
Proof. intros H. apply String.eqb_neq in H. cbn. by rewrite H. Qed.


(** ** Texts *)

Lemma append_cons (c : ascii) (s t : string) :
  String c s +:+ t = String c (s +:+ t).
Proof. reflexivity. Qed.

Lemma append_nil (t : string) : "" +:+ t = t.
Proof. reflexivity. Qed.

Lemma append_length (s t : string) :
  String.length (s +:+ t) = (String.length s + String.length t)%nat.
Proof. induction s as [|c s IH]; [done|]. rewrite append_cons. cbn. by rewrite IH. Qed.

(** ** Sets *)

Section SetFacts.
Context `{EqDecision K}.
Implicit Types (k x : K) (s : list K).

Lemma has_true k s : has k s = true ↔ k ∈ s.
Proof. apply bool_decide_eq_true. Qed.

Lemma has_false k s : has k s = false ↔ k ∉ s.
Proof. apply bool_decide_eq_false. Qed.

Lemma has_ext k s s' : (∀ x, x ∈ s ↔ x ∈ s') → has k s = has k s'.
Proof. intros H. apply bool_decide_ext, H. Qed.

Lemma elem_of_add x k s : x ∈ add k s ↔ x = k ∨ x ∈ s.
Proof.
  unfold add. destruct (has k s) eqn:E.
  - apply has_true in E. split; [auto | intros [->|]; auto].
  - rewrite elem_of_app, list_elem_of_singleton. tauto.
Qed.


Lemma elem_of_foldl_add x (xs : list K) s :
  x ∈ foldl (λ s k, add k s) s xs ↔ x ∈ s ∨ x ∈ xs.
Proof.
  revert s. induction xs as [|k xs IH]; intros s; cbn.
  - rewrite elem_of_nil. tauto.
  - rewrite IH, elem_of_add, elem_of_cons. tauto.
Qed.

Lemma elem_of_Set_of x (xs : list K) : x ∈ Set_of xs ↔ x ∈ xs.
Proof. unfold Set_of. rewrite elem_of_foldl_add, elem_of_nil. tauto. Qed.

End SetFacts.

(** ** The media classifier *)

Example classify_audio_segment :
  isAudioOnly Fixtures.runtime_double
    "https://scontent.cdninstagram.com/o1/v/t16/f2/m78/AQ.mp4?efg=x" = true.
Proof. reflexivity. Qed.

Example classify_video_segment :
  isAudioOnly Fixtures.runtime_double
    "https://scontent.cdninstagram.com/o1/v/t16/f2/m367/AQ.mp4" = false.
Proof. reflexivity. Qed.

Example classify_descriptor_audio :
  isAudioOnly Fixtures.runtime_double
    "https://v.fbcdn.net/v/AQ.mp4?efg=eyJlbmNvZGVfdGFnIjoiZGFzaF9hdWRpbyJ9"
  = true.
Proof. reflexivity. Qed.

Example classify_not_a_url :
  isAudioOnly_try Fixtures.runtime_double "AQ.mp4" = Throw "Invalid URL"
  ∧ isAudioOnly Fixtures.runtime_double "AQ.mp4" = false.
Proof. split; reflexivity. Qed.





(** C10.  On every string and whatever the library calls do, [isAudioOnly]
    returns a boolean: the one its body computes, or [false] when the body
    throws.  In particular a string without path marker that [new URL]
    rejects, that has no [efg] parameter, or whose decoded parameter
    [JSON.parse] rejects, is classified video. *)
Theorem isAudioOnly_total_fail_open (rt : Runtime) (url : string) :
  (∃ b : bool,
     isAudioOnly rt url = b ∧
     (isAudioOnly_try rt url = Normal b
      ∨ (b = false ∧ ∃ message, isAudioOnly_try rt url = Throw message)))
  ∧ (includes url "/m78/" = false → includes url "/m367/" = false →
     (∀ message, URL_new rt url = Throw message → isAudioOnly rt url = false)
     ∧ (∀ u, URL_new rt url = Normal u →
             searchParams_get rt u "efg" = None → isAudioOnly rt url = false)
     ∧ (∀ u efg message,
          URL_new rt url = Normal u →
          searchParams_get rt u "efg" = Some efg →
          JSON_parse rt (Buffer_base64_utf8 rt efg) = Throw message →
          isAudioOnly rt url = false)).
Proof.
  split.
  - unfold isAudioOnly.
    destruct (isAudioOnly_try rt url) as [b|message] eqn:E.
    + exists b. split; [reflexivity | left; reflexivity].
    + exists false. split; [reflexivity | right; eauto].
  - intros Ha Hv. unfold isAudioOnly, isAudioOnly_try. rewrite Ha, Hv.
    split; [|split].
    + intros message ->. reflexivity.
    + intros u Hu Hefg. rewrite Hu. cbn. by rewrite Hefg.
    + intros u efg message Hu Hefg Hjson. rewrite Hu. cbn. rewrite Hefg.
      destruct (String.eqb efg ""); [reflexivity|]. by rewrite Hjson.
Qed.

Lemma isAudioOnly_total_fail_open_witness :
  isAudioOnly Fixtures.runtime_double "AQ.mp4" = false
  ∧ isAudioOnly Fixtures.runtime_double "https://v.fbcdn.net/v/AQ.mp4" = false
  ∧ isAudioOnly Fixtures.runtime_double "https://v.fbcdn.net/v/AQ.mp4?efg=!!"
    = false.
Proof.
  split; [|split].
  - destruct (isAudioOnly_total_fail_open Fixtures.runtime_double "AQ.mp4")
      as [_ H].
    destruct H as (Hurl & _); [reflexivity | reflexivity |].
    apply (Hurl "Invalid URL"). reflexivity.
  - destruct (isAudioOnly_total_fail_open Fixtures.runtime_double
                "https://v.fbcdn.net/v/AQ.mp4") as [_ H].
    destruct H as (_ & Hefg & _); [reflexivity | reflexivity |].
    apply (Hefg "https://v.fbcdn.net/v/AQ.mp4"); reflexivity.
  - destruct (isAudioOnly_total_fail_open Fixtures.runtime_double
                "https://v.fbcdn.net/v/AQ.mp4?efg=!!") as [_ H].
    destruct H as (_ & _ & Hjson); [reflexivity | reflexivity |].
    apply (Hjson "https://v.fbcdn.net/v/AQ.mp4?efg=!!" "!!"
             "Unexpected token in JSON"); reflexivity.
Defined.

(** ** The reconciliation pipeline *)

Lemma append_inj_r (s a b : string) : s +:+ a = s +:+ b → a = b.
Proof. induction s as [|c s IH]; cbn; [tauto | intros [= H]; auto]. Qed.

Lemma videoPath_ne_audioPath (videoId : string) :
  videoPath_of videoId ≠ audioPath_of videoId.
Proof.
  unfold videoPath_of, audioPath_of, path_join, TEMP_DIR.
  intros H. do 3 apply append_inj_r in H. discriminate.
Qed.

Lemma outputPath_ne_videoPath (videoId : string) :
  outputPath_of videoId ≠ videoPath_of videoId.
Proof. discriminate. Qed.

Lemma outputPath_ne_audioPath (videoId : string) :
  outputPath_of videoId ≠ audioPath_of videoId.
Proof. discriminate. Qed.

Lemma unlink_delete (path : string) (fs : files) :
  snd (unlink path fs) = delete path fs.
Proof.
  unfold unlink. destruct (fs !! path) eqn:E; cbn; [reflexivity|].
  symmetry. by apply delete_id.
Qed.

Lemma processStory_catch_files message videoPath audioPath outputPath (fs : files) :
  processStory_catch message videoPath audioPath outputPath fs
  = (Failure message, delete outputPath (delete audioPath (delete videoPath fs))).
Proof. unfold processStory_catch. by rewrite !unlink_delete. Qed.

(** C1, as the code has it.  When both downloads succeed and the merge
    process does not exit with code 0, [processStory] removes the temporary
    files and whatever is at the output path, leaves every other file alone
    and returns the failure result carrying the merge error; the caller then
    emits the video story with the captured URL and no local identifier. *)
Theorem processStory_merge_failure (w : World) (videoUrl a : string)
    (fs : files) (v ad : bytes) (code : option Z) (written : option bytes) :
  fetch w videoUrl = Some v →
  fetch w a = Some ad →
  a ≠ "" →
  ffmpeg w (Some v) (Some ad) = Close code written →
  code ≠ Some 0 →
  let failure := Failure ("ffmpeg failed with exit code " +:+ show_code code) in
  ∃ fs' : files,
    processStory w videoUrl (str a) fs = (failure, fs')
    ∧ fs' !! outputPath_of (uuidv4 w) = None
    ∧ fs' !! videoPath_of (uuidv4 w) = None
    ∧ fs' !! audioPath_of (uuidv4 w) = None
    ∧ (∀ path, path ≠ outputPath_of (uuidv4 w) → path ≠ videoPath_of (uuidv4 w) →
               path ≠ audioPath_of (uuidv4 w) → fs' !! path = fs !! path)
    ∧ ∀ (cfg : Config) (c : Cycle) (pk : string) (content : Content)
        (st : WalkState),
        world c = w → disk st = fs → has (str pk) (seenPks st) = false →
        ∃ item,
          stories (video_branch cfg c pk content videoUrl (str a) st)
          = stories st ++ [item]
          ∧ Story.ig_pk item = str pk
          ∧ Story.is_video item = true
          ∧ Story.media_url item = str videoUrl
          ∧ Story.local_video_id item = null.
Proof.
  intros Hv Ha Hne Hff Hcode failure.
  assert (Hrun : processStory w videoUrl (str a) fs
                 = (failure,
                    delete (outputPath_of (uuidv4 w))
                      (delete (audioPath_of (uuidv4 w))
                         (delete (videoPath_of (uuidv4 w))
                            (match written with
                             | Some out => <[outputPath_of (uuidv4 w) := out]>
                                             (<[audioPath_of (uuidv4 w) := ad]>
                                                (<[videoPath_of (uuidv4 w) := v]> fs))
                             | None => <[audioPath_of (uuidv4 w) := ad]>
                                         (<[videoPath_of (uuidv4 w) := v]> fs)
                             end))))).
  { unfold processStory, downloadFile.
    rewrite Hv, (truthy_string_str a Hne), Ha. cbn [negb].
    unfold combineVideoAudio.
    rewrite lookup_insert_ne by (apply not_eq_sym, videoPath_ne_audioPath).
    rewrite !lookup_insert_eq. rewrite Hff.
    destruct code as [[|p|p]|]; try congruence;
      apply processStory_catch_files. }
  eexists. split; [exact Hrun|].
  split; [apply lookup_delete_eq|].
  split.
  { rewrite lookup_delete_ne by apply outputPath_ne_videoPath.
    rewrite lookup_delete_ne by (apply not_eq_sym, videoPath_ne_audioPath).
    apply lookup_delete_eq. }
  split.
  { rewrite lookup_delete_ne by apply outputPath_ne_audioPath.
    apply lookup_delete_eq. }
  split.
  { intros path Ho Hvp Hap.
    rewrite !lookup_delete_ne by congruence.
    destruct written; rewrite !lookup_insert_ne by congruence; reflexivity. }
  intros cfg c pk content st Hw Hd Hseen.
  unfold video_branch. rewrite Hseen, Hw, Hd, Hrun. cbn.
  eexists. split; [reflexivity|]. cbn. auto.
Qed.

Lemma processStory_merge_failure_witness :
  ∃ fs' : files,
    processStory Fixtures.world_merge_fails "https://v.fbcdn.net/m367/v.mp4"
      (str "https://v.fbcdn.net/m78/a.mp4") ∅
    = (Failure ("ffmpeg failed with exit code " +:+ show_code (Some 1)), fs')
    ∧ fs' !! outputPath_of "0f0e" = None.
Proof.
  destruct (processStory_merge_failure Fixtures.world_merge_fails
              "https://v.fbcdn.net/m367/v.mp4" "https://v.fbcdn.net/m78/a.mp4"
              ∅ [Byte.x01; Byte.x02] [Byte.x03] (Some 1) None)
    as (fs' & Hrun & Hout & _); [reflexivity | reflexivity | discriminate
                                | reflexivity | discriminate |].
  exists fs'. split; [exact Hrun | exact Hout].
Defined.

(** C1, as claimed, fails: with both downloads good and exit code 1 the
    result is a failure and nothing is stored under the identifier. *)
Lemma processStory_merge_failure_not_success :
  fetch Fixtures.world_merge_fails "https://v.fbcdn.net/m367/v.mp4"
    = Some [Byte.x01; Byte.x02]
  ∧ fetch Fixtures.world_merge_fails "https://v.fbcdn.net/m78/a.mp4"
    = Some [Byte.x03]
  ∧ ffmpeg Fixtures.world_merge_fails (Some [Byte.x01; Byte.x02]) (Some [Byte.x03])
    = Close (Some 1) None
  ∧ success (fst (processStory Fixtures.world_merge_fails
                    "https://v.fbcdn.net/m367/v.mp4"
                    (str "https://v.fbcdn.net/m78/a.mp4") ∅)) = false
  ∧ snd (processStory Fixtures.world_merge_fails
           "https://v.fbcdn.net/m367/v.mp4"
           (str "https://v.fbcdn.net/m78/a.mp4") ∅)
      !! outputPath_of "0f0e" = None.
Proof. repeat split; vm_compute; reflexivity. Qed.

(** ** The range server *)








(** ** The dedup ledger *)

Section LedgerFacts.
Context (u : string).
Implicit Types (batch : list Story.StoryItem) (ids seen : list value).

Lemma filter_step_fold ids batch seen seen0 (acc : list Story.StoryItem) :
  (∀ x, x ∈ seen ↔ x ∈ seen0) →
  snd (foldl (filter_step ids) (seen, acc) batch)
  = acc ++ List.filter (not_persisted ids) (first_occurrences seen0 batch).
Proof.
  revert seen seen0 acc.
  induction batch as [|story batch IH]; intros seen seen0 acc Hseen;
    cbn -[story_id has add].
  - by rewrite app_nil_r.
  - rewrite (has_ext _ seen seen0 Hseen).
    destruct (has (story_id story) seen0) eqn:Hdup; [by apply IH|].
    assert (Hseen' : ∀ x, x ∈ add (story_id story) seen
                          ↔ x ∈ story_id story :: seen0).
    { intros x. rewrite elem_of_add, elem_of_cons, Hseen. tauto. }
    cbn -[story_id has add]. unfold not_persisted at 1.
    destruct (has (story_id story) ids); cbn -[story_id has add].
    + by apply IH.
    + rewrite (IH _ _ _ Hseen'). by rewrite <- app_assoc.
Qed.

(** The loop of [filterProcessedStories] is [filterNew] on the stored set. *)
Lemma filterProcessedStories_filterNew file batch :
  filterProcessedStories u file batch = filterNew (getProcessedIds u file) batch.
Proof.
  unfold filterProcessedStories, filterNew.
  by rewrite (filter_step_fold _ _ [] [] []).
Qed.

Lemma first_occurrences_elem seen batch story :
  story ∈ first_occurrences seen batch →
  story ∈ batch ∧ story_id story ∉ seen.
Proof.
  revert seen. induction batch as [|s batch IH]; intros seen;
    cbn -[story_id has].
  - by rewrite elem_of_nil.
  - destruct (has (story_id s) seen) eqn:E.
    + intros [? ?]%IH. split; [by right | done].
    + apply has_false in E. intros [->|H]%elem_of_cons; [split; [by left|done]|].
      apply IH in H as [? Hn]. split; [by right|].
      intros ?. apply Hn. by right.
Qed.

Lemma first_occurrences_NoDup seen batch :
  NoDup (map story_id (first_occurrences seen batch)).
Proof.
  revert seen. induction batch as [|s batch IH]; intros seen;
    cbn -[story_id has].
  - constructor.
  - destruct (has (story_id s) seen); [apply IH|].
    cbn -[story_id has]. constructor; [|apply IH].
    intros (story & Heq & Hin)%list_elem_of_fmap.
    apply first_occurrences_elem in Hin as [_ Hn]. apply Hn. rewrite Heq. by left.
Qed.

Lemma first_occurrences_id seen batch :
  NoDup (map story_id batch) →
  (∀ story, story ∈ batch → story_id story ∉ seen) →
  first_occurrences seen batch = batch.
Proof.
  revert seen. induction batch as [|s batch IH]; intros seen Hnd Hfresh;
    cbn -[story_id has]; [done|].
  cbn -[story_id] in Hnd. apply NoDup_cons in Hnd as [Hs Hnd].
  assert (E : has (story_id s) seen = false).
  { apply has_false, Hfresh. by left. }
  rewrite E. f_equal. apply IH; [done|].
  intros story Hin [Heq|Hold]%elem_of_cons.
  - apply Hs. rewrite <- Heq. apply list_elem_of_fmap. eauto.
  - apply (Hfresh story); [by right | done].
Qed.

Lemma filter_elem (f : Story.StoryItem → bool) batch story :
  story ∈ List.filter f batch ↔ story ∈ batch ∧ f story = true.
Proof. rewrite !list_elem_of_In. apply filter_In. Qed.

Lemma filter_all (f : Story.StoryItem → bool) batch :
  (∀ story, story ∈ batch → f story = true) → List.filter f batch = batch.
Proof.
  induction batch as [|s batch IH]; intros H; cbn; [done|].
  rewrite (H s) by (by left). f_equal. apply IH. intros; apply H. by right.
Qed.


Lemma filter_map_NoDup (f : Story.StoryItem → bool) batch :
  NoDup (map story_id batch) → NoDup (map story_id (List.filter f batch)).
Proof.
  induction batch as [|s batch IH]; cbn -[story_id]; [done|].
  intros [Hs Hnd]%NoDup_cons. destruct (f s); cbn -[story_id]; [|by apply IH].
  constructor; [|by apply IH].
  intros (story & Heq & [Hin _]%filter_elem)%list_elem_of_fmap.
  apply Hs, list_elem_of_fmap. eauto.
Qed.


Lemma elem_of_added (x : value) (incoming stored : list value) :
  x ∈ foldl (λ ids id, if has id ids then ids else add id ids) stored incoming
  ↔ x ∈ stored ∨ x ∈ incoming.
Proof.
  revert stored. induction incoming as [|id incoming IH]; intros stored; cbn.
  - rewrite elem_of_nil. tauto.
  - rewrite IH, elem_of_cons. destruct (has id stored) eqn:E.
    + apply has_true in E. split; [tauto | intros [?|[->|?]]; auto].
    + rewrite elem_of_add. tauto.
Qed.


Lemma elem_of_map_written (x : value) (l : list value) :
  truthy x = true → x ∈ map written l ↔ x ∈ l.
Proof.
  intros Hx. rewrite list_elem_of_fmap. split.
  - intros (y & -> & Hy). by destruct y.
  - intros Hin. exists x. split; [by destruct x | done].
Qed.

(** What [markAsProcessed] leaves in the file: every truthy identifier of
    the batch, next to the truthy identifiers that were there. *)
Lemma markAsProcessed_ids now batch file x :
  truthy x = true →
  x ∈ getProcessedIds u (markAsProcessed u now batch file)
  ↔ x ∈ getProcessedIds u file ∨ x ∈ map story_id batch.
Proof.
  intros Hx.
  unfold markAsProcessed, addStoryIds, save, getProcessedIds, ids_or_empty.
  cbn -[story_id Set_of].
  rewrite !elem_of_Set_of, (elem_of_map_written x _ Hx), elem_of_added,
    elem_of_Set_of.
  rewrite (list_elem_of_In (List.filter _ _) x), filter_In, <- list_elem_of_In.
  tauto.
Qed.

End LedgerFacts.



(** ** The request listener *)

Section ListenerFacts.
Context (rt : Runtime).
Implicit Types (i : Interceptor) (url : string).

Lemma on_request_other i url :
  is_media_request url = false → on_request rt i url = i.
Proof. intros H. unfold on_request. by rewrite H. Qed.

(** The sets only grow, in arrival order. *)
Lemma on_request_captured i url :
  (∃ more, capturedVideos (on_request rt i url) = capturedVideos i ++ more)
  ∧ (∃ more, capturedAudios (on_request rt i url) = capturedAudios i ++ more).
Proof.
  unfold on_request, add.
  destruct (is_media_request url); [|split; exists []; by rewrite app_nil_r].
  destruct (isAudioOnly rt (cleanUrl_of url)).
  - destruct (has _ (capturedAudios i)); cbn;
      (split; [exists []; by rewrite app_nil_r|]); eauto.
    exists []; by rewrite app_nil_r.
  - destruct (has _ (capturedVideos i)); cbn;
      (split; [|exists []; by rewrite app_nil_r]); eauto.
    exists []; by rewrite app_nil_r.
Qed.

(** During a walk a slot field is empty or holds the newest member of the
    set of its kind. *)
Lemma listening_slot i :
  listening rt i →
  (video (currentStoryMedia i) = null
   ∨ ∃ u, last (capturedVideos i) = Some u ∧ video (currentStoryMedia i) = str u)
  ∧ (audio (currentStoryMedia i) = null
     ∨ ∃ u, last (capturedAudios i) = Some u ∧ audio (currentStoryMedia i) = str u).
Proof.
  induction 1 as [|i url _ [IHv IHa]|i _ _]; cbn; [auto | | auto].
  unfold on_request, add.
  destruct (is_media_request url); [|auto].
  destruct (isAudioOnly rt (cleanUrl_of url)).
  - destruct (has _ (capturedAudios i)); cbn; [auto|].
    split; [exact IHv|]. right. eexists. by rewrite last_snoc.
  - destruct (has _ (capturedVideos i)); cbn; [auto|].
    split; [|exact IHa]. right. eexists. by rewrite last_snoc.
Qed.

End ListenerFacts.

(** C4, as the code has it.  A matching request whose normalized URL was
    not seen before for its kind during the walk overwrites the slot field
    of that kind and joins the set of that kind; one whose normalized URL
    was seen before changes nothing, so the field keeps what it had (empty
    after a reset).  The field of the other kind is never touched. *)
Theorem on_request_slot (rt : Runtime) (i : Interceptor) (url : string) :
  is_media_request url = true →
  (isAudioOnly rt (cleanUrl_of url) = false →
     video (currentStoryMedia (on_request rt i url))
     = (if has (cleanUrl_of url) (capturedVideos i)
        then video (currentStoryMedia i) else str (cleanUrl_of url))
     ∧ audio (currentStoryMedia (on_request rt i url))
       = audio (currentStoryMedia i)
     ∧ capturedVideos (on_request rt i url)
       = add (cleanUrl_of url) (capturedVideos i))
  ∧ (isAudioOnly rt (cleanUrl_of url) = true →
     audio (currentStoryMedia (on_request rt i url))
     = (if has (cleanUrl_of url) (capturedAudios i)
        then audio (currentStoryMedia i) else str (cleanUrl_of url))
     ∧ video (currentStoryMedia (on_request rt i url))
       = video (currentStoryMedia i)
     ∧ capturedAudios (on_request rt i url)
       = add (cleanUrl_of url) (capturedAudios i)).
Proof.
  intros Hmedia. unfold on_request. rewrite Hmedia.
  split; intros Hkind; rewrite Hkind; unfold add.
  - destruct (has _ (capturedVideos i)); cbn; auto.
  - destruct (has _ (capturedAudios i)); cbn; auto.
Qed.

Lemma on_request_slot_witness :
  video (currentStoryMedia
           (on_request Fixtures.runtime_double fresh_interceptor
              "https://v.fbcdn.net/m367/v.mp4?bytestart=0&byteend=99"))
  = str "https://v.fbcdn.net/m367/v.mp4"
  ∧ audio (currentStoryMedia
             (on_request Fixtures.runtime_double fresh_interceptor
                "https://v.fbcdn.net/m367/v.mp4?bytestart=0&byteend=99"))
    = null.
Proof.
  destruct (on_request_slot Fixtures.runtime_double fresh_interceptor
              "https://v.fbcdn.net/m367/v.mp4?bytestart=0&byteend=99")
    as [Hvideo _]; [reflexivity|].
  destruct Hvideo as (Hv & Ha & _); [reflexivity|].
  split; [exact Hv | exact Ha].
Defined.

(** C4, as claimed, fails: after a capture and a reset of the slot, a second
    fetch of the same asset (another byte range, the same normalized URL)
    is ignored and the video field stays empty. *)
Lemma on_request_repeated_url_ignored :
  is_media_request "https://v.fbcdn.net/m367/v.mp4?bytestart=100&byteend=199" = true
  ∧ cleanUrl_of "https://v.fbcdn.net/m367/v.mp4?bytestart=100&byteend=199"
    = "https://v.fbcdn.net/m367/v.mp4"
  ∧ isAudioOnly Fixtures.runtime_double "https://v.fbcdn.net/m367/v.mp4" = false
  ∧ video (currentStoryMedia
             (on_request Fixtures.runtime_double
                (reset_slot
                   (on_request Fixtures.runtime_double fresh_interceptor
                      "https://v.fbcdn.net/m367/v.mp4?bytestart=0&byteend=99"))
                "https://v.fbcdn.net/m367/v.mp4?bytestart=100&byteend=199"))
    = null.
Proof. repeat split; vm_compute; reflexivity. Qed.

(** ** The story loop *)

Section WalkFacts.
Context (rt : Runtime) (cfg : Config).
Implicit Types (c : Cycle) (st : WalkState) (env : nat → Cycle).

#[local] Ltac story_cases :=
  unfold evaluate_story, video_branch, image_branch, emit, count_idle;
  repeat match goal with
         | |- context [match ?x with _ => _ end] => destruct x eqn:?
         end.

(** What a story evaluation leaves alone, and the idle count never drops. *)
Lemma evaluate_story_frame c storyPk content videoUrl audioUrl st :
  storyIndex (evaluate_story cfg c storyPk content videoUrl audioUrl st)
  = storyIndex st
  ∧ lastUrl (evaluate_story cfg c storyPk content videoUrl audioUrl st)
    = lastUrl st
  ∧ interceptor (evaluate_story cfg c storyPk content videoUrl audioUrl st)
    = interceptor st
  ∧ (noContentCount st
     ≤ noContentCount (evaluate_story cfg c storyPk content videoUrl audioUrl st))%nat.
Proof. story_cases; cbn; auto with lia. Qed.

(** [go_next] only moves the index; it breaks only on a rejected key press
    and never throws. *)
Lemma go_next_cases c st :
  ∃ st',
    (go_next c st = Continue st'
     ∨ (go_next c st = Break st' ∧ ∃ message, advance c = Throw message))
    ∧ stories st' = stories st ∧ interceptor st' = interceptor st
    ∧ storyIndex st' = S (storyIndex st)
    ∧ noContentCount st' = noContentCount st
    ∧ lastUrl st' = lastUrl st ∧ seenPks st' = seenPks st.
Proof.
  unfold go_next. cbv zeta. cbn [noContentCount].
  destruct (noContentCount st <? 3)%nat; [destruct (advance c) eqn:E|];
    eexists; (split; [eauto | cbn; auto 10]).
Qed.

Lemma identified_ext st st' :
  stories st' = stories st → seenPks st' = seenPks st →
  identified st → identified st'.
Proof. unfold identified. by intros -> ->. Qed.

Lemma emit_identified pk item fs st :
  identified st → has (str pk) (seenPks st) = false →
  Story.ig_pk item = str pk → identified (emit pk item fs st).
Proof.
  intros [Hnd Hseen] Hnew%has_false Hpk. unfold identified, emit. cbn. split.
  - rewrite map_app. apply NoDup_app. split; [exact Hnd|].
    split; [|apply NoDup_singleton].
    intros x (old & -> & Hold)%list_elem_of_fmap Hx%list_elem_of_singleton.
    destruct (Hseen old Hold) as (pk' & Hpk' & Hin).
    apply Hnew. cbn in Hx. by rewrite <- Hpk, <- Hx, Hpk'.
  - intros it [Hold| ->%list_elem_of_singleton]%elem_of_app.
    + destruct (Hseen it Hold) as (pk' & ? & ?). exists pk'.
      split; [done|]. apply elem_of_add. by right.
    + exists pk. split; [done|]. apply elem_of_add. by left.
Qed.

Lemma evaluate_story_identified c storyPk content videoUrl audioUrl st :
  identified st →
  identified (evaluate_story cfg c storyPk content videoUrl audioUrl st).
Proof.
  intros H. unfold evaluate_story, video_branch, image_branch.
  destruct storyPk as [pk|]; [|by apply (identified_ext st)].
  destruct (if isVideo content then truthy_string videoUrl else None) as [v|].
  - destruct (has (str pk) (seenPks st)) eqn:E; cbn; [exact H|].
    destruct (processStory (world c) v audioUrl (disk st)) as [r fs].
    by apply emit_identified.
  - destruct (isVideo content); cbn; [by apply (identified_ext st)|].
    destruct (truthy _); cbn; [|by apply (identified_ext st)].
    destruct (has (str pk) (seenPks st)) eqn:E; cbn;
      [by apply (identified_ext st)|].
    by apply emit_identified.
Qed.

(** The state a turn hands to [go_next]. *)
Lemma iteration_cases c st :
  (∃ message, iteration rt cfg c st = Raise message
              ∧ (settle c = Throw message ∨ page_dom c = Throw message))
  ∨ ∃ mid, iteration rt cfg c st = go_next c mid
      ∧ storyIndex mid = storyIndex st
      ∧ lastUrl mid = (if location_unchanged (location c) st
                       then lastUrl st else location c)
      ∧ ((if location_unchanged (location c) st
          then S (noContentCount st) else O) ≤ noContentCount mid)%nat
      ∧ (identified st → identified mid).
Proof.
  unfold iteration.
  destruct (settle c) as [[]|message]; [|left; eauto].
  destruct (already_seen _ (seenPks st)).
  { right. eexists. split; [reflexivity|]. cbn.
    refine (conj eq_refl (conj eq_refl (conj _ _))); [done|].
    apply identified_ext; reflexivity. }
  destruct (page_dom c) as [d|message]; [|left; eauto].
  right. eexists. split; [reflexivity|].
  match goal with
  | |- context [evaluate_story cfg c ?pk ?ct ?v ?a ?base] =>
      pose proof (evaluate_story_frame c pk ct v a base) as (Hi & Hl & _ & Hn);
      pose proof (evaluate_story_identified c pk ct v a base) as Hid
  end.
  rewrite Hi, Hl. cbn in *.
  refine (conj eq_refl (conj eq_refl (conj Hn _))).
  intros H. apply Hid. revert H. apply identified_ext; reflexivity.
Qed.

Lemma iteration_step c st :
  match iteration rt cfg c st with
  | Continue st' => turn_effect c st st'
  | Break st' => turn_effect c st st' ∧ ∃ message, advance c = Throw message
  | Raise message => settle c = Throw message ∨ page_dom c = Throw message
  end.
Proof.
  destruct (iteration_cases c st) as [(m & -> & H)|(mid & -> & Hi & Hl & Hn & Hid)];
    [exact H|].
  destruct (go_next_cases c mid)
    as (st' & [-> |[-> Hadv]] & Hs & _ & Hi' & Hn' & Hl' & Hp);
    unfold turn_effect; rewrite Hi', Hn', Hl', Hi, Hl;
    (assert (Hid' : identified st → identified st')
      by (intros H; apply Hid in H; revert H; apply identified_ext; auto));
    auto 10.
Qed.

(** More turns do not change the outcome of a loop that has ended. *)
Lemma story_loop_more turns more env st outcome :
  story_loop rt cfg turns env st = Some outcome →
  story_loop rt cfg (turns + more) env st = Some outcome.
Proof.
  revert st. induction turns as [|turns IH]; intros st; cbn [story_loop Nat.add].
  - destruct (noContentCount st <? 3)%nat eqn:E; [discriminate|].
    intros H. destruct more; cbn [story_loop]; by rewrite E.
  - destruct (noContentCount st <? 3)%nat; [|done].
    destruct (iteration rt cfg (env (storyIndex st)) st); auto.
Qed.




Lemma story_loop_identified turns env st st' :
  identified st →
  story_loop rt cfg turns env st = Some (Normal st') → identified st'.
Proof.
  revert st. induction turns as [|turns IH]; intros st Hid; cbn [story_loop];
    destruct (noContentCount st <? 3)%nat; try discriminate;
    try (by intros [= <-]).
  pose proof (iteration_step (env (storyIndex st)) st) as Hstep.
  destruct (iteration rt cfg (env (storyIndex st)) st) as [mid|mid|message];
    [| |discriminate].
  - destruct Hstep as (_ & _ & _ & Hkeep). apply IH, Hkeep, Hid.
  - destruct Hstep as [(_ & _ & _ & Hkeep) _]. intros [= <-]. apply Hkeep, Hid.
Qed.

Lemma initial_state_identified this_seenPks ledger fs :
  identified (initial_state cfg this_seenPks ledger fs).
Proof.
  split; cbn; [constructor | intros item Hin; by apply elem_of_nil in Hin].
Qed.

End WalkFacts.





(** C9.  Every story of the batch a walk returns carries a text identifier,
    and no two stories of the batch carry the same one. *)
Theorem walk_batch_identified (rt : Runtime) (cfg : Config) (turns : nat)
    (entryUrl : string) (this_seenPks : list value) (ledger : option Ledger)
    (env : nat → Cycle) (fs : files) (batch : list Story.StoryItem) :
  extractStoryDataFromPage rt cfg turns entryUrl this_seenPks ledger env fs
  = Some batch →
  Forall (λ item, ∃ pk, Story.ig_pk item = str pk) batch
  ∧ NoDup (map Story.ig_pk batch).
Proof.
  unfold extractStoryDataFromPage.
  destruct (negb (includes entryUrl "/stories/")).
  { intros [= <-]. split; constructor. }
  destruct (story_loop rt cfg turns env _) as [[st|message]|] eqn:Hrun;
    [| intros [= <-]; split; constructor | discriminate].
  intros [= <-].
  destruct (story_loop_identified rt cfg turns env _ st
              (initial_state_identified cfg this_seenPks ledger fs) Hrun)
    as [Hnd Hseen].
  split; [|exact Hnd].
  apply Forall_forall. intros item Hin.
  destruct (Hseen item Hin) as (pk & Hpk & _). eauto.
Qed.

Lemma walk_batch_identified_witness :
  ∃ batch,
    extractStoryDataFromPage Fixtures.runtime_double Fixtures.cfg0 10
      Fixtures.story_111 [] None Fixtures.walk_video_then_image ∅ = Some batch
    ∧ length batch = 2%nat
    ∧ Forall (λ item, ∃ pk, Story.ig_pk item = str pk) batch
    ∧ NoDup (map Story.ig_pk batch).
Proof.
  eexists. split; [vm_compute; reflexivity|]. split; [reflexivity|].
  apply (walk_batch_identified Fixtures.runtime_double Fixtures.cfg0 10
           Fixtures.story_111 [] None Fixtures.walk_video_then_image ∅).
  vm_compute. reflexivity.
Defined.

(** ** The slot and the image URL along a walk *)

Section SlotFacts.
Context (rt : Runtime) (cfg : Config).
Implicit Types (c : Cycle) (st : WalkState).

Lemma heard_captured (i : Interceptor) (reqs : list string) :
  ∃ more, capturedVideos (foldl (on_request rt) i reqs)
          = capturedVideos i ++ more.
Proof.
  revert i. induction reqs as [|url reqs IH]; intros i; cbn.
  - exists []. by rewrite app_nil_r.
  - destruct (IH (on_request rt i url)) as [more ->].
    destruct (on_request_captured rt i url) as [[more' ->] _].
    exists (more' ++ more). by rewrite app_assoc.
Qed.

(** A turn on a story that is already in [this.seenPks] does not read the
    page and leaves the slot as the listener filled it. *)
Lemma iteration_skip c st pk :
  settle c = Normal () →
  storyPk_of (location c) = Some pk →
  has (str pk) (seenPks st) = true →
  ∃ st', (iteration rt cfg c st = Continue st'
          ∨ iteration rt cfg c st = Break st')
    ∧ stories st' = stories st
    ∧ interceptor st' = foldl (on_request rt) (interceptor st) (requests c).
Proof.
  intros Hs Hpk Hseen. unfold iteration. rewrite Hs, Hpk. cbn [already_seen].
  rewrite Hseen.
  match goal with |- context [go_next c ?mid] =>
    destruct (go_next_cases c mid) as (st' & Hgo & Hst & Hi & _)
  end.
  exists st'. split; [tauto|]. split; [exact Hst | exact Hi].
Qed.

(** A turn that evaluates the story resets the slot. *)
Lemma iteration_evaluated c st d :
  settle c = Normal () →
  already_seen (storyPk_of (location c)) (seenPks st) = false →
  page_dom c = Normal d →
  ∃ st', (iteration rt cfg c st = Continue st'
          ∨ iteration rt cfg c st = Break st')
    ∧ currentStoryMedia (interceptor st') = empty_slot.
Proof.
  intros Hs Hseen Hd. unfold iteration. rewrite Hs, Hseen, Hd.
  match goal with |- context [go_next c ?mid] =>
    destruct (go_next_cases c mid) as (st' & Hgo & _ & Hi & _)
  end.
  exists st'. split; [tauto|]. rewrite Hi.
  match goal with |- context [evaluate_story cfg c ?pk ?ct ?v ?a ?base] =>
    destruct (evaluate_story_frame cfg c pk ct v a base) as (_ & _ & -> & _)
  end.
  reflexivity.
Qed.

End SlotFacts.

(** C3, on the code.  With story 111 in the tracker, the turn on story 111
    ends with the slot still holding the two URLs captured during it, and
    the item then pushed for story 222 carries the audio URL of story 111,
    which also went into its merged file. *)
Theorem skipped_story_keeps_slot :
  (∃ st1,
     iteration Fixtures.runtime_double Fixtures.cfg0 (Fixtures.walk_after_seen 0)
       (initial_state Fixtures.cfg0 [str "111"] None ∅) = Continue st1
     ∧ currentStoryMedia (interceptor st1)
       = {| video := str "https://v.fbcdn.net/m367/111.mp4";
            audio := str "https://v.fbcdn.net/m78/111.mp4" |})
  ∧ ∃ item st2,
      extractStoryDataFromPage Fixtures.runtime_double Fixtures.cfg0 10
        Fixtures.story_111 [str "111"] None Fixtures.walk_after_seen ∅
      = Some [item]
      ∧ Story.ig_pk item = str "222"
      ∧ Story.original_video_url item = str "https://v.fbcdn.net/m367/222.mp4"
      ∧ Story.original_audio_url item = str "https://v.fbcdn.net/m78/111.mp4"
      ∧ story_loop Fixtures.runtime_double Fixtures.cfg0 10
          Fixtures.walk_after_seen
          (initial_state Fixtures.cfg0 [str "111"] None ∅) = Some (Normal st2)
      ∧ disk st2 !! outputPath_of "0f0e" = Some [Byte.x22; Byte.xa1].
Proof.
  split.
  - eexists. split; [vm_compute; reflexivity | reflexivity].
  - eexists. eexists. split; [vm_compute; reflexivity|].
    do 3 (split; [reflexivity|]).
    split; [vm_compute; reflexivity | vm_compute; reflexivity].
Qed.

(** The page function sets the poster only together with the video flag. *)
Lemma evaluate_content_poster (d : Dom) :
  isVideo (evaluate_content d) = false → posterUrl (evaluate_content d) = null.
Proof.
  unfold evaluate_content. cbn.
  by destruct (List.find visible_video (videos d)).
Qed.

(** The selection of the image URL.  For a story that is not video-flagged
    and not yet seen, the image URL is the newest member of the set of video URLs
    the listener has collected since the walk began, whichever turn it was
    captured in; only when that set is empty is it the poster URL, provided
    the poster is a non-empty text that does not start with [blob:].  The
    image story is pushed with that URL exactly when the URL is truthy. *)
Lemma image_story_url (rt : Runtime) (cfg : Config) (c : Cycle)
    (st : WalkState) (pk : string) (d : Dom) :
  settle c = Normal () →
  storyPk_of (location c) = Some pk →
  has (str pk) (seenPks st) = false →
  page_dom c = Normal d →
  isVideo (evaluate_content d) = false →
  (∃ more, capturedVideos (foldl (on_request rt) (interceptor st) (requests c))
           = capturedVideos (interceptor st) ++ more)
  ∧ (∀ u, last (capturedVideos
                  (foldl (on_request rt) (interceptor st) (requests c))) = Some u →
          select_imageUrl
            (capturedVideos (foldl (on_request rt) (interceptor st) (requests c)))
            (evaluate_content d) = str u)
  ∧ (capturedVideos (foldl (on_request rt) (interceptor st) (requests c)) = [] →
     select_imageUrl [] (evaluate_content d)
     = match posterUrl (evaluate_content d) with
       | str p => if negb (String.eqb p "") && negb (startsWith p "blob:")
                  then str p else null
       | _ => null
       end)
  ∧ ∃ st', (iteration rt cfg c st = Continue st'
            ∨ iteration rt cfg c st = Break st')
      ∧ stories st'
        = (if truthy (select_imageUrl
                        (capturedVideos
                           (foldl (on_request rt) (interceptor st) (requests c)))
                        (evaluate_content d))
           then stories st ++
                [image_story cfg c pk (evaluate_content d)
                   (select_imageUrl
                      (capturedVideos
                         (foldl (on_request rt) (interceptor st) (requests c)))
                      (evaluate_content d))]
           else stories st).
Proof.
  intros Hs Hpk Hseen Hd Himage.
  split; [apply heard_captured|].
  split; [intros u Hu; unfold select_imageUrl; by rewrite Hu|].
  split; [reflexivity|].
  unfold iteration. rewrite Hs, Hpk. cbn [already_seen]. rewrite Hseen, Hd.
  match goal with |- context [go_next c ?mid] =>
    destruct (go_next_cases c mid) as (st' & Hgo & Hst & _)
  end.
  exists st'. split; [tauto|]. rewrite Hst.
  unfold evaluate_story. rewrite Himage. cbn [negb].
  unfold image_branch. cbn [seenPks interceptor reset_slot capturedVideos].
  rewrite Hseen. cbn [negb]. rewrite andb_true_r.
  destruct (truthy _); reflexivity.
Qed.

Lemma image_story_url_witness :
  select_imageUrl
    (capturedVideos
       (foldl (on_request Fixtures.runtime_double)
          (interceptor (initial_state Fixtures.cfg0 [] None ∅))
          (requests (Fixtures.walk_stuck 0))))
    (evaluate_content Fixtures.image_dom)
  = str "https://v.fbcdn.net/m367/222.mp4".
Proof.
  destruct (image_story_url Fixtures.runtime_double Fixtures.cfg0
              (Fixtures.walk_stuck 0) (initial_state Fixtures.cfg0 [] None ∅)
              "222" Fixtures.image_dom)
    as (_ & Hlast & _); [reflexivity | vm_compute; reflexivity | vm_compute; reflexivity
                        | reflexivity | reflexivity |].
  apply Hlast. vm_compute. reflexivity.
Defined.

(** C5, on the code.  The set of captured video URLs is never cleared, and
    the image branch takes its newest member: no request is seen during the
    turn on the image story 222, the page has no poster, and the item of
    story 222 carries as its image the video URL captured during the turn on
    story 111. *)
Theorem image_story_uses_earlier_capture :
  requests (Fixtures.walk_video_then_image 1) = []
  ∧ posterUrl (evaluate_content Fixtures.image_dom) = null
  ∧ ∃ first second,
      extractStoryDataFromPage Fixtures.runtime_double Fixtures.cfg0 10
        Fixtures.story_111 [] None Fixtures.walk_video_then_image ∅
      = Some [first; second]
      ∧ Story.ig_pk first = str "111"
      ∧ Story.original_video_url first = str "https://v.fbcdn.net/m367/111.mp4"
      ∧ Story.ig_pk second = str "222"
      ∧ Story.is_video second = false
      ∧ Story.media_url second = str "https://v.fbcdn.net/m367/111.mp4".
Proof.
  split; [reflexivity|]. split; [reflexivity|].
  eexists. eexists. split; [vm_compute; reflexivity|].
  cbn. auto 10.
Qed.

(** * Further properties of the sources *)

(** ** The tracker file *)

Section TrackerFacts.
Context (u : string).
Implicit Types (ids stored : list value) (file : option Ledger).











Lemma first_occurrences_sublist (seen : list value)
    (batch : list Story.StoryItem) :
  sublist (first_occurrences seen batch) batch.
Proof.
  revert seen. induction batch as [|s b IH]; intros seen;
    cbn -[story_id has]; [done|].
  destruct (has (story_id s) seen); [apply sublist_cons | apply sublist_skip];
    apply IH.
Qed.

Lemma filter_sublist (f : Story.StoryItem → bool) (l : list Story.StoryItem) :
  sublist (List.filter f l) l.
Proof.
  induction l as [|s l IH]; cbn; [done|].
  destruct (f s); [by apply sublist_skip | by apply sublist_cons].
Qed.

Lemma first_occurrences_complete (seen : list value)
    (batch : list Story.StoryItem) (story : Story.StoryItem) :
  story ∈ batch → story_id story ∉ seen →
  ∃ kept, kept ∈ first_occurrences seen batch
          ∧ story_id kept = story_id story.
Proof.
  revert seen. induction batch as [|s b IH]; intros seen Hin Hseen;
    cbn -[story_id has]; [by apply elem_of_nil in Hin|].
  destruct (has (story_id s) seen) eqn:E.
  - apply has_true in E. apply elem_of_cons in Hin as [->|Hin]; [done|].
    by apply IH.
  - destruct (decide (story_id story = story_id s)) as [Heq|Hne].
    + exists s. split; [by left | done].
    + apply elem_of_cons in Hin as [->|Hin]; [done|].
      destruct (IH (story_id s :: seen) Hin) as (kept & ? & ?).
      { intros [?|?]%elem_of_cons; done. }
      exists kept. split; [by right | done].
Qed.

(** X3.  What [filterProcessedStories] returns is a sub-list of the batch
    in the order of the batch; its identifiers are pairwise different and
    none is stored; and it keeps one item for every identifier of the batch
    that is not stored. *)
Theorem filterProcessedStories_sound_complete file
    (batch : list Story.StoryItem) :
  sublist (filterProcessedStories u file batch) batch
  ∧ NoDup (map story_id (filterProcessedStories u file batch))
  ∧ (∀ story, story ∈ filterProcessedStories u file batch →
       story_id story ∉ getProcessedIds u file)
  ∧ (∀ story, story ∈ batch → story_id story ∉ getProcessedIds u file →
       ∃ kept, kept ∈ filterProcessedStories u file batch
               ∧ story_id kept = story_id story).
Proof.
  rewrite filterProcessedStories_filterNew. unfold filterNew.
  split; [etrans; [apply filter_sublist | apply first_occurrences_sublist]|].
  split; [apply filter_map_NoDup, first_occurrences_NoDup|].
  split.
  { intros story [_ Hkept]%filter_elem. unfold not_persisted in Hkept.
    by apply negb_true_iff, has_false in Hkept. }
  intros story Hin Hnew.
  destruct (first_occurrences_complete [] batch story Hin (not_elem_of_nil _))
    as (kept & Hkept & Heq).
  exists kept. split; [|done]. apply filter_elem. split; [done|].
  unfold not_persisted. apply negb_true_iff, has_false. by rewrite Heq.
Qed.


End TrackerFacts.




(** ** [processStory], case by case *)

Section PipelineFacts.
Context (w : World).
Implicit Types (fs : files) (audioUrl : value).

Abbreviation vp := (videoPath_of (uuidv4 w)).
Abbreviation ap := (audioPath_of (uuidv4 w)).
Abbreviation op := (outputPath_of (uuidv4 w)).
Abbreviation swept fs := (delete op (delete ap (delete vp fs))).

Lemma truthy_truthy_string (v : value) :
  truthy v = match truthy_string v with Some _ => true | None => false end.
Proof. destruct v as [| |s]; cbn; try done. by destruct (String.eqb s ""). Qed.

Lemma truthy_string_is_str (v : value) (a : string) :
  truthy_string v = Some a → v = str a ∧ a ≠ "".
Proof.
  destruct v as [| |s]; cbn; try done.
  destruct (String.eqb s "") eqn:E; [done|]. intros [= ->].
  by apply String.eqb_neq in E.
Qed.

Lemma processStory_no_video videoUrl audioUrl fs :
  fetch w videoUrl = None →
  processStory w videoUrl audioUrl fs
  = (Failure "Failed to download video", swept fs).
Proof.
  intros Hv. unfold processStory, downloadFile. rewrite Hv. cbn [negb].
  apply processStory_catch_files.
Qed.

Lemma processStory_video_only videoUrl audioUrl fs v :
  fetch w videoUrl = Some v →
  match truthy_string audioUrl with
  | Some a => fetch w a = None
  | None => True
  end →
  processStory w videoUrl audioUrl fs
  = (Success (uuidv4 w) op ("/videos/" +:+ uuidv4 w +:+ ".mp4"),
     (if truthy audioUrl then delete ap else id)
       (delete vp (<[op := v]> (<[vp := v]> fs)))).
Proof.
  intros Hv Ha. unfold processStory, downloadFile. rewrite Hv. cbn [negb].
  rewrite truthy_truthy_string.
  assert (Hcopy : copyFile vp op (<[vp := v]> fs)
                  = (Normal (), <[op := v]> (<[vp := v]> fs))).
  { unfold copyFile. by rewrite lookup_insert_eq. }
  assert (Hunlink : unlink vp (<[op := v]> (<[vp := v]> fs))
                    = (Normal (), delete vp (<[op := v]> (<[vp := v]> fs)))).
  { unfold unlink.
    rewrite lookup_insert_ne by apply outputPath_ne_videoPath.
    by rewrite lookup_insert_eq. }
  destruct (truthy_string audioUrl) as [a|] eqn:Et.
  - rewrite Ha, Hcopy. unfold cleanup_temp. rewrite Hunlink.
    rewrite truthy_truthy_string, Et. by rewrite unlink_delete.
  - rewrite Hcopy. unfold cleanup_temp. rewrite Hunlink.
    by rewrite truthy_truthy_string, Et.
Qed.

Lemma processStory_merge videoUrl audioUrl fs a v ad code written :
  fetch w videoUrl = Some v →
  truthy_string audioUrl = Some a →
  fetch w a = Some ad →
  ffmpeg w (Some v) (Some ad) = Close code written →
  processStory w videoUrl audioUrl fs
  = let merged := match written with
                  | Some out => <[op := out]> (<[ap := ad]> (<[vp := v]> fs))
                  | None => <[ap := ad]> (<[vp := v]> fs)
                  end in
    match code with
    | Some 0 => (Success (uuidv4 w) op ("/videos/" +:+ uuidv4 w +:+ ".mp4"),
                 delete ap (delete vp merged))
    | _ => (Failure ("ffmpeg failed with exit code " +:+ show_code code),
            swept merged)
    end.
Proof.
  intros Hv Et Ha Hff. unfold processStory, downloadFile.
  rewrite Hv, Et, Ha. cbn [negb]. unfold combineVideoAudio.
  rewrite lookup_insert_ne by (apply not_eq_sym, videoPath_ne_audioPath).
  rewrite !lookup_insert_eq, Hff. cbv zeta.
  set (merged := match written with Some _ => _ | None => _ end).
  assert (Hclean : cleanup_temp audioUrl vp ap merged
                   = delete ap (delete vp merged)).
  { unfold cleanup_temp, unlink.
    assert (merged !! vp = Some v) as ->.
    { unfold merged. destruct written.
      - rewrite lookup_insert_ne by apply outputPath_ne_videoPath.
        rewrite lookup_insert_ne by (apply not_eq_sym, videoPath_ne_audioPath).
        apply lookup_insert_eq.
      - rewrite lookup_insert_ne by (apply not_eq_sym, videoPath_ne_audioPath).
        apply lookup_insert_eq. }
    rewrite truthy_truthy_string, Et.
    change (snd (unlink ap (delete vp merged)) = delete ap (delete vp merged)).
    apply unlink_delete. }
  destruct code as [[|p|p]|]; try apply processStory_catch_files.
  by rewrite Hclean.
Qed.

Lemma processStory_spawn_error videoUrl audioUrl fs a v ad message :
  fetch w videoUrl = Some v →
  truthy_string audioUrl = Some a →
  fetch w a = Some ad →
  ffmpeg w (Some v) (Some ad) = SpawnError message →
  processStory w videoUrl audioUrl fs
  = (Failure ("ffmpeg spawn error: " +:+ message),
     swept (<[ap := ad]> (<[vp := v]> fs))).
Proof.
  intros Hv Et Ha Hff. unfold processStory, downloadFile.
  rewrite Hv, Et, Ha. cbn [negb]. unfold combineVideoAudio.
  rewrite lookup_insert_ne by (apply not_eq_sym, videoPath_ne_audioPath).
  rewrite !lookup_insert_eq, Hff. apply processStory_catch_files.
Qed.

End PipelineFacts.

(** The success result of [processStory] names the drawn identifier and the
    URL path of the artifact. *)
Lemma processStory_result (w : World) (videoUrl : string) (audioUrl : value)
    (fs : files) (videoId localPath url : string) :
  fst (processStory w videoUrl audioUrl fs) = Success videoId localPath url →
  videoId = uuidv4 w ∧ url = "/videos/" +:+ videoId +:+ ".mp4".
Proof.
  unfold processStory, processStory_catch.
  repeat case_match; cbn; intros [=]; by subst.
Qed.

(** ** Paths of the artifact store *)

Lemma split_on_plain (sep : ascii) (s : string) :
  includes s (String sep "") = false → split_on sep s = (s, []).
Proof.
  induction s as [|c s IH]; [done|]. cbn [includes startsWith].
  intros [Hc Hs]%orb_false_elim. cbn [split_on]. rewrite (IH Hs).
  rewrite Ascii.eqb_sym. destruct (Ascii.eqb sep c); [by destruct s | done].
Qed.

Lemma includes_append_plain (s t sub : string) :
  String.length sub = 1%nat →
  includes s sub = false → includes t sub = false →
  includes (s +:+ t) sub = false.
Proof.
  intros Hsub Hs Ht. destruct sub as [|sep [|? ?]]; try done.
  induction s as [|c s IH]; [by rewrite append_nil|].
  rewrite append_cons. cbn [includes startsWith] in Hs |- *.
  apply orb_false_elim in Hs as [Hc Hs]. rewrite (IH Hs), orb_false_r.
  destruct (Ascii.eqb sep c); [by destruct s | done].
Qed.

Lemma below_app (dir rest : list string) : below dir (dir ++ rest) = Some rest.
Proof.
  induction dir as [|d dir IH]; [done|]. cbn. by rewrite String.eqb_refl.
Qed.

(** A name of three characters or more is a name to go down to. *)
Lemma descend_name (walked : list string) (name : string) :
  (2 < String.length name)%nat → descend walked name = name :: walked.
Proof.
  intros Hlen. unfold descend.
  destruct name as [|a [|b [|c name]]]; cbn in Hlen; try lia.
  cbn. destruct (Ascii.eqb a "."); [|done]. by destruct (Ascii.eqb b ".").
Qed.

(** For an identifier without separator, [getVideoPath] is the path
    [processStory] writes the artifact to. *)
Lemma getVideoPath_plain (cwd : list string) (videoId : string) :
  includes videoId "/" = false →
  getVideoPath cwd videoId = outputPath_of videoId.
Proof.
  intros Hplain. unfold getVideoPath, join_under.
  assert (Hname : includes (videoId +:+ ".mp4") "/" = false)
    by (by apply includes_append_plain).
  rewrite (split_on_plain "/" _ Hname).
  cbn [foldl]. rewrite descend_name by (rewrite append_length; cbn; lia).
  cbn [rev]. rewrite rev_involutive. unfold file_key.
  rewrite <- app_assoc. cbn [app]. rewrite below_app. reflexivity.
Qed.

(** X5.  [processStory] reports success exactly when the video download
    succeeds and either there is no audio URL, or the audio download fails,
    or the merge process exits with code 0; the success result then names
    the drawn identifier, the path [video_stories/<id>.mp4] and the URL
    [/videos/<id>.mp4]. *)
Theorem processStory_success_iff (cwd : list string) (w : World)
    (videoUrl : string) (audioUrl : value) (fs : files) :
  (success (fst (processStory w videoUrl audioUrl fs)) = true ↔
   ∃ v, fetch w videoUrl = Some v ∧
     match truthy_string audioUrl with
     | None => True
     | Some a =>
         match fetch w a with
         | None => True
         | Some ad => ∃ written, ffmpeg w (Some v) (Some ad) = Close (Some 0) written
         end
     end)
  ∧ (success (fst (processStory w videoUrl audioUrl fs)) = true →
     fst (processStory w videoUrl audioUrl fs)
     = Success (uuidv4 w) (getVideoPath cwd (uuidv4 w))
         ("/videos/" +:+ uuidv4 w +:+ ".mp4")).
Proof.
  rewrite (getVideoPath_plain cwd (uuidv4 w) (uuidv4_name w)).
  destruct (fetch w videoUrl) as [v|] eqn:Hv.
  2:{ rewrite (processStory_no_video w _ _ _ Hv). cbn.
      split; [|done]. split; [done | intros (v & [=] & _)]. }
  destruct (truthy_string audioUrl) as [a|] eqn:Et.
  2:{ rewrite (processStory_video_only w _ _ _ v Hv) by (by rewrite Et). cbn.
      split; [|done]. split; [eauto | done]. }
  destruct (fetch w a) as [ad|] eqn:Ha.
  2:{ rewrite (processStory_video_only w _ _ _ v Hv) by (by rewrite Et). cbn.
      split; [|done]. split; [|done]. intros _. by exists v. }
  destruct (ffmpeg w (Some v) (Some ad)) as [code written|message] eqn:Hff.
  - rewrite (processStory_merge w _ _ _ a v ad code written Hv Et Ha Hff).
    destruct code as [[|p|p]|]; cbn; (split; [|done]);
      (split; [try done; intros _; exists v; eauto|]);
      intros (v' & [= <-] & Hex);
      try done; destruct Hex as [written' Hex]; congruence.
  - rewrite (processStory_spawn_error w _ _ _ a v ad message Hv Et Ha Hff). cbn.
    split; [|done]. split; [done|].
    intros (v' & [= <-] & Hex).
    destruct Hex as [written' Hex]. congruence.
Qed.

(** X6.  Whatever happens, [processStory] touches only its three paths and
    never leaves the temporary video behind; the temporary audio is gone
    whenever an audio URL was given; and after a failure nothing is left at
    the output path either. *)
Theorem processStory_cleanup (w : World) (videoUrl : string)
    (audioUrl : value) (fs : files) :
  (∀ path, path ≠ outputPath_of (uuidv4 w) → path ≠ videoPath_of (uuidv4 w) →
           path ≠ audioPath_of (uuidv4 w) →
           snd (processStory w videoUrl audioUrl fs) !! path = fs !! path)
  ∧ snd (processStory w videoUrl audioUrl fs) !! videoPath_of (uuidv4 w) = None
  ∧ (truthy audioUrl = true →
     snd (processStory w videoUrl audioUrl fs) !! audioPath_of (uuidv4 w) = None)
  ∧ (success (fst (processStory w videoUrl audioUrl fs)) = false →
     snd (processStory w videoUrl audioUrl fs) !! outputPath_of (uuidv4 w) = None
     ∧ snd (processStory w videoUrl audioUrl fs) !! audioPath_of (uuidv4 w) = None).
Proof.
  pose proof (videoPath_ne_audioPath (uuidv4 w)) as Hva.
  pose proof (outputPath_ne_videoPath (uuidv4 w)) as Hov.
  pose proof (outputPath_ne_audioPath (uuidv4 w)) as Hoa.
  assert (Hswept : ∀ m : files,
    (∀ path, path ≠ outputPath_of (uuidv4 w) → path ≠ videoPath_of (uuidv4 w) →
             path ≠ audioPath_of (uuidv4 w) → m !! path = fs !! path) →
    (∀ path, path ≠ outputPath_of (uuidv4 w) → path ≠ videoPath_of (uuidv4 w) →
             path ≠ audioPath_of (uuidv4 w) →
       delete (outputPath_of (uuidv4 w))
         (delete (audioPath_of (uuidv4 w))
            (delete (videoPath_of (uuidv4 w)) m)) !! path = fs !! path)
    ∧ delete (outputPath_of (uuidv4 w))
        (delete (audioPath_of (uuidv4 w))
           (delete (videoPath_of (uuidv4 w)) m)) !! videoPath_of (uuidv4 w) = None
    ∧ delete (outputPath_of (uuidv4 w))
        (delete (audioPath_of (uuidv4 w))
           (delete (videoPath_of (uuidv4 w)) m)) !! audioPath_of (uuidv4 w) = None
    ∧ delete (outputPath_of (uuidv4 w))
        (delete (audioPath_of (uuidv4 w))
           (delete (videoPath_of (uuidv4 w)) m)) !! outputPath_of (uuidv4 w) = None).
  { intros m Hm. repeat split.
    - intros path ? ? ?. rewrite !lookup_delete_ne by done. by apply Hm.
    - rewrite !lookup_delete_ne by done. apply lookup_delete_eq.
    - rewrite lookup_delete_ne by done. apply lookup_delete_eq.
    - apply lookup_delete_eq. }
  destruct (fetch w videoUrl) as [v|] eqn:Hv.
  2:{ rewrite (processStory_no_video w _ _ _ Hv). cbn [fst snd success].
      destruct (Hswept fs) as (H1 & H2 & H3 & H4); [done|]. auto. }
  destruct (truthy_string audioUrl) as [a|] eqn:Et.
  2:{ rewrite (processStory_video_only w _ _ _ v Hv) by (by rewrite Et).
      rewrite truthy_truthy_string, Et. cbn [fst snd success id].
      split; [|split; [|split]]; try done.
      - intros path ? ? ?. rewrite lookup_delete_ne by done.
        by rewrite !lookup_insert_ne.
      - apply lookup_delete_eq. }
  destruct (fetch w a) as [ad|] eqn:Ha.
  2:{ rewrite (processStory_video_only w _ _ _ v Hv) by (by rewrite Et).
      rewrite truthy_truthy_string, Et. cbn [fst snd success].
      split; [|split; [|split]]; try done.
      - intros path ? ? ?. rewrite !lookup_delete_ne by done.
        by rewrite !lookup_insert_ne.
      - rewrite lookup_delete_ne by done. apply lookup_delete_eq.
      - intros _. apply lookup_delete_eq. }
  destruct (ffmpeg w (Some v) (Some ad)) as [code written|message] eqn:Hff.
  - rewrite (processStory_merge w _ _ _ a v ad code written Hv Et Ha Hff).
    cbv zeta.
    set (merged := match written with Some _ => _ | None => _ end).
    assert (Hmerged : ∀ path, path ≠ outputPath_of (uuidv4 w) →
              path ≠ videoPath_of (uuidv4 w) → path ≠ audioPath_of (uuidv4 w) →
              merged !! path = fs !! path).
    { intros path ? ? ?. unfold merged.
      destruct written; by rewrite !lookup_insert_ne. }
    destruct (Hswept merged Hmerged) as (H1 & H2 & H3 & H4).
    destruct code as [[|p|p]|]; cbn [fst snd success]; try by auto.
    split; [|split; [|split]]; try done.
    + intros path ? ? ?. rewrite !lookup_delete_ne by done. by apply Hmerged.
    + rewrite lookup_delete_ne by done. apply lookup_delete_eq.
    + intros _. apply lookup_delete_eq.
  - rewrite (processStory_spawn_error w _ _ _ a v ad message Hv Et Ha Hff).
    cbn [fst snd success].
    destruct (Hswept (<[audioPath_of (uuidv4 w) := ad]>
                        (<[videoPath_of (uuidv4 w) := v]> fs)))
      as (H1 & H2 & H3 & H4); [|by auto].
    intros. by rewrite !lookup_insert_ne.
Qed.

(** X7.  What [processStory] stores: the downloaded video itself when no
    audio URL is given or the audio download fails, and the file the merge
    process wrote when that process exits with code 0. *)
Theorem processStory_artifact (w : World) (videoUrl : string)
    (audioUrl : value) (fs : files) (v : bytes) :
  fetch w videoUrl = Some v →
  (match truthy_string audioUrl with
   | Some a => fetch w a = None
   | None => True
   end →
   snd (processStory w videoUrl audioUrl fs) !! outputPath_of (uuidv4 w) = Some v)
  ∧ (∀ a ad out,
       truthy_string audioUrl = Some a → fetch w a = Some ad →
       ffmpeg w (Some v) (Some ad) = Close (Some 0) (Some out) →
       snd (processStory w videoUrl audioUrl fs) !! outputPath_of (uuidv4 w)
       = Some out).
Proof.
  intros Hv.
  pose proof (videoPath_ne_audioPath (uuidv4 w)) as Hva.
  pose proof (outputPath_ne_videoPath (uuidv4 w)) as Hov.
  pose proof (outputPath_ne_audioPath (uuidv4 w)) as Hoa.
  split.
  - intros Ha. rewrite (processStory_video_only w _ _ _ v Hv Ha). cbn [snd].
    destruct (truthy audioUrl); cbn [id];
      rewrite !lookup_delete_ne by done; apply lookup_insert_eq.
  - intros a ad out Et Ha Hff.
    rewrite (processStory_merge w _ _ _ a v ad _ _ Hv Et Ha Hff). cbn [snd].
    rewrite !lookup_delete_ne by done. apply lookup_insert_eq.
Qed.

Lemma processStory_artifact_witness :
  snd (processStory Fixtures.world_ok "https://v.fbcdn.net/m367/222.mp4" null ∅)
    !! outputPath_of "0f0e" = Some [Byte.x22]
  ∧ snd (processStory Fixtures.world_ok "https://v.fbcdn.net/m367/111.mp4"
           (str "https://v.fbcdn.net/m78/111.mp4") ∅)
      !! outputPath_of "0f0e" = Some [Byte.x11; Byte.xa1].
Proof.
  split.
  - destruct (processStory_artifact Fixtures.world_ok
                "https://v.fbcdn.net/m367/222.mp4" null ∅ [Byte.x22])
      as [Honly _]; [reflexivity|]. by apply Honly.
  - destruct (processStory_artifact Fixtures.world_ok
                "https://v.fbcdn.net/m367/111.mp4"
                (str "https://v.fbcdn.net/m78/111.mp4") ∅ [Byte.x11])
      as [_ Hmerged]; [reflexivity|].
    apply (Hmerged "https://v.fbcdn.net/m78/111.mp4" [Byte.xa1]); reflexivity.
Defined.

(** ** The artifact store behind the server *)

Lemma append_inj_l (a b s : string) : a +:+ s = b +:+ s → a = b.
Proof.
  revert b. induction a as [|c a IH]; intros [|d b] H.
  - done.
  - apply (f_equal String.length) in H.
    rewrite append_nil, append_cons in H. cbn in H. rewrite append_length in H. lia.
  - apply (f_equal String.length) in H.
    rewrite append_nil, append_cons in H. cbn in H. rewrite append_length in H. lia.
  - rewrite !append_cons in H. injection H as -> H. f_equal. by apply IH.
Qed.

Lemma stream_route_full (cwd : list string) (fs : files) (id : string)
    (data : bytes) :
  fs !! getVideoPath cwd id = Some data →
  stream_route cwd fs id undefined
  = Sent {| status := 200;
            headers := cors_headers ++
                       [("Content-Length", pretty (Z.of_nat (length data)));
                        ("Content-Type", "video/mp4")];
            body := Piped data |}.
Proof. intros H. unfold stream_route. by rewrite H. Qed.

(** X8.  An artifact that [processStory] reports and stored is served: the
    range route answers a request without [Range] header for the reported
    identifier with status 200, the size of the artifact and the artifact;
    and the story the walk pushes for it points at [/videos/<id>.mp4] of the
    server and names that identifier. *)
Theorem processStory_then_stream (cwd : list string) (w : World)
    (videoUrl : string) (audioUrl : value) (fs : files) (artifact : bytes) :
  success (fst (processStory w videoUrl audioUrl fs)) = true →
  snd (processStory w videoUrl audioUrl fs) !! outputPath_of (uuidv4 w)
  = Some artifact →
  videoExists cwd (snd (processStory w videoUrl audioUrl fs)) (uuidv4 w) = true
  ∧ (∃ response,
       stream_route cwd (snd (processStory w videoUrl audioUrl fs))
         (uuidv4 w) undefined = Sent response
       ∧ status response = 200
       ∧ header "Content-Length" response
         = Some (pretty (Z.of_nat (length artifact)))
       ∧ body response = Piped artifact)
  ∧ ∀ (cfg : Config) (c : Cycle) (pk : string) (content : Content)
      (st : WalkState),
      world c = w → disk st = fs → has (str pk) (seenPks st) = false →
      ∃ item,
        stories (video_branch cfg c pk content videoUrl audioUrl st)
        = stories st ++ [item]
        ∧ disk (video_branch cfg c pk content videoUrl audioUrl st)
          = snd (processStory w videoUrl audioUrl fs)
        ∧ Story.local_video_id item = str (uuidv4 w)
        ∧ Story.media_url item
          = str (SERVER_URL cfg +:+ "/videos/" +:+ uuidv4 w +:+ ".mp4").
Proof.
  intros Hok Hart.
  rewrite <- (getVideoPath_plain cwd (uuidv4 w) (uuidv4_name w)) in Hart.
  split; [unfold videoExists; by rewrite Hart|].
  split.
  { eexists. split; [exact (stream_route_full _ _ _ _ Hart)|]. cbn. done. }
  intros cfg c pk content st Hw Hd Hseen.
  unfold video_branch. rewrite Hseen, Hw, Hd. cbn [negb].
  pose proof (processStory_result w videoUrl audioUrl fs) as Hres.
  destruct (processStory w videoUrl audioUrl fs) as [[id p url|message] fs'];
    [|done].
  destruct (Hres id p url eq_refl) as [-> ->]. cbn. eauto.
Qed.

Lemma processStory_then_stream_witness :
  ∃ response,
    stream_route Fixtures.cwd0
      (snd (processStory Fixtures.world_ok "https://v.fbcdn.net/m367/222.mp4"
              null ∅)) "0f0e" undefined
    = Sent response
    ∧ status response = 200
    ∧ body response = Piped [Byte.x22].
Proof.
  destruct (processStory_then_stream Fixtures.cwd0 Fixtures.world_ok
              "https://v.fbcdn.net/m367/222.mp4" null ∅ [Byte.x22])
    as (_ & (response & Hsent & Hstatus & _ & Hbody) & _);
    [vm_compute; reflexivity | vm_compute; reflexivity |].
  exists response. split; [exact Hsent|]. split; [exact Hstatus | exact Hbody].
Defined.

(** X9.  [DELETE /videos/:id] answers 200 exactly when the artifact exists
    and 404 otherwise, leaving the store as it was; afterwards the artifact
    is gone, the range route answers 404 for it, a second delete answers
    404, and no other file has changed.  The identifier is resolved as a
    path: every identifier that names the same file is deleted with it,
    while identifiers without separator name different files. *)
Theorem delete_route_effect (cwd : list string) (fs : files) (id : string) :
  (reply_status (fst (delete_route cwd fs id)) = 200
   ↔ videoExists cwd fs id = true)
  ∧ (videoExists cwd fs id = false → delete_route cwd fs id = (VideoNotFound, fs))
  ∧ videoExists cwd (snd (delete_route cwd fs id)) id = false
  ∧ (∀ range, ∃ response,
       stream_route cwd (snd (delete_route cwd fs id)) id range = Sent response
       ∧ status response = 404)
  ∧ delete_route cwd (snd (delete_route cwd fs id)) id
    = (VideoNotFound, snd (delete_route cwd fs id))
  ∧ (∀ path, path ≠ getVideoPath cwd id →
       snd (delete_route cwd fs id) !! path = fs !! path)
  ∧ (∀ other, getVideoPath cwd other = getVideoPath cwd id →
       videoExists cwd (snd (delete_route cwd fs id)) other = false)
  ∧ (∀ other, includes id "/" = false → includes other "/" = false →
       other ≠ id →
       snd (delete_route cwd fs id) !! getVideoPath cwd other
       = fs !! getVideoPath cwd other).
Proof.
  assert (Hplain : ∀ other, includes id "/" = false →
            includes other "/" = false → other ≠ id →
            getVideoPath cwd other ≠ getVideoPath cwd id).
  { intros other Hid Hother Hne. rewrite !getVideoPath_plain by done.
    unfold outputPath_of, path_join. intros H.
    do 2 apply append_inj_r in H. by apply append_inj_l in H. }
  unfold delete_route, deleteVideo, unlink, videoExists.
  destruct (fs !! getVideoPath cwd id) as [data|] eqn:E; cbn.
  - split; [done|]. split; [done|].
    rewrite lookup_delete_eq. split; [done|].
    split.
    { intros range. unfold stream_route. rewrite lookup_delete_eq. eauto. }
    split; [done|].
    split; [intros path Hne; by apply lookup_delete_ne|].
    split; [intros other ->; by rewrite lookup_delete_eq|].
    intros other Hid Hother Hne. apply lookup_delete_ne.
    apply not_eq_sym. by apply Hplain.
  - rewrite E. cbn. split; [done|]. split; [done|]. split; [done|].
    split.
    { intros range. unfold stream_route. rewrite E. eauto. }
    split; [done|]. split; [done|].
    split; [intros other ->; by rewrite E | done].
Qed.

Lemma delete_route_effect_witness :
  videoExists Fixtures.cwd0 Fixtures.store1000 "abc" = true
  ∧ fst (delete_route Fixtures.cwd0 Fixtures.store1000 "x/../abc") = VideoDeleted
  ∧ videoExists Fixtures.cwd0
      (snd (delete_route Fixtures.cwd0 Fixtures.store1000 "x/../abc")) "abc"
    = false
  ∧ snd (delete_route Fixtures.cwd0 Fixtures.store1000 "abd")
      !! getVideoPath Fixtures.cwd0 "abc"
    = Some (repeat Byte.x41 1000).
Proof.
  destruct (delete_route_effect Fixtures.cwd0 Fixtures.store1000 "x/../abc")
    as (_ & _ & _ & _ & _ & _ & Hsame & _).
  destruct (delete_route_effect Fixtures.cwd0 Fixtures.store1000 "abd")
    as (_ & _ & _ & _ & _ & _ & _ & Hother).
  split; [reflexivity|]. split; [reflexivity|].
  split; [apply Hsame; reflexivity|].
  rewrite (Hother "abc"); [reflexivity | reflexivity | reflexivity | discriminate].
Defined.

(** ** Range headers *)


















(** ** The walk, turn by turn *)

Lemma span_prefix (p : ascii → bool) (s a b : string) :
  span p s = (a, b) → span p a = (a, "").
Proof.
  revert a b. induction s as [|c s IH]; intros a b; cbn [span].
  - by intros [= <- <-].
  - destruct (p c) eqn:E; [|by intros [= <- <-]].
    destruct (span p s) as [a' b'] eqn:Es. intros [= <- <-].
    cbn [span]. rewrite E. by rewrite (IH a' b' eq_refl).
Qed.

Lemma digits1_digits (s d rest : string) :
  digits1 s = Some (d, rest) → d ≠ "" ∧ span is_digit d = (d, "").
Proof.
  unfold digits1. destruct (span is_digit s) as [a b] eqn:E.
  destruct (String.eqb a "") eqn:Ea; [done|]. intros [= <- <-].
  split; [by apply String.eqb_neq | by apply (span_prefix _ s a b)].
Qed.

Lemma match_story_here_digits (s pk : string) :
  match_story_here s = Some pk → pk ≠ "" ∧ span is_digit pk = (pk, "").
Proof.
  unfold match_story_here.
  destruct (after_literal "stories/" s) as [s1|]; [cbn|done].
  destruct (span _ s1) as [segment s2].
  destruct (String.eqb segment ""); [done|].
  destruct (after_literal "/" s2) as [s3|]; [cbn|done].
  destruct (digits1 s3) as [[d rest]|] eqn:E; [cbn|done].
  intros [= <-]. by apply (digits1_digits s3 d rest).
Qed.

(** The identifier read from a location is a non-empty run of digits. *)
Lemma storyPk_of_digits (url pk : string) :
  storyPk_of url = Some pk → pk ≠ "" ∧ span is_digit pk = (pk, "").
Proof.
  induction url as [|c url IH]; cbn [storyPk_of].
  - destruct (match_story_here "") eqn:E; [|done].
    intros [= <-]. by apply (match_story_here_digits "").
  - destruct (match_story_here (String c url)) eqn:E; [|exact IH].
    intros [= <-]. by apply (match_story_here_digits (String c url)).
Qed.

Lemma append_not_empty (s t : string) : t ≠ "" → s +:+ t ≠ "".
Proof.
  intros Ht H. apply (f_equal String.length) in H.
  rewrite append_length in H. destruct t; [done|]. cbn in H. lia.
Qed.

Lemma truthy_str (s : string) : s ≠ "" → truthy (str s) = true.
Proof. intros H. cbn. apply String.eqb_neq in H. by rewrite H. Qed.

Lemma append_not_empty_l (s t : string) : s ≠ "" → s +:+ t ≠ "".
Proof.
  intros Hs H. apply (f_equal String.length) in H.
  rewrite append_length in H. destruct s; [done|]. cbn in H. lia.
Qed.

Lemma add_fresh `{EqDecision K} (k : K) (s : list K) :
  has k s = false → add k s = s ++ [k].
Proof. intros H. unfold add. by rewrite H. Qed.

Section TurnFacts.
Context (rt : Runtime) (cfg : Config).
Implicit Types (c : Cycle) (st : WalkState) (env : nat → Cycle).

Lemma video_story_well_formed c pk content v audioUrl (w : World) fs :
  pk ≠ "" → span is_digit pk = (pk, "") → v ≠ "" →
  well_formed cfg
    (video_story cfg c pk content v audioUrl
       (fst (processStory w v audioUrl fs))).
Proof.
  intros Hpk Hdigits Hv. exists pk. cbn.
  refine (conj eq_refl (conj Hpk (conj Hdigits (conj eq_refl (conj eq_refl _))))).
  assert (Ht : truthy (or_else (posterUrl content) (str v)) = true).
  { unfold or_else. destruct (truthy (posterUrl content)) eqn:E; [done|].
    by apply truthy_str. }
  destruct (fst (processStory w v audioUrl fs)) as [id p url|message] eqn:E.
  - apply processStory_result in E as [-> ->].
    split; [|split; [exact Ht|]].
    + apply truthy_str, append_not_empty, append_not_empty_l. done.
    + left. do 2 (split; [done|]). split; [by apply truthy_str|].
      right. by exists (uuidv4 w).
  - split; [by apply truthy_str|]. split; [exact Ht|].
    left. do 2 (split; [done|]). split; [by apply truthy_str|]. by left.
Qed.

Lemma image_story_well_formed c pk content imageUrl :
  pk ≠ "" → span is_digit pk = (pk, "") → truthy imageUrl = true →
  well_formed cfg (image_story cfg c pk content imageUrl).
Proof.
  intros Hpk Hdigits Hurl. exists pk. cbn.
  refine (conj eq_refl (conj Hpk (conj Hdigits (conj eq_refl (conj eq_refl _))))).
  split; [exact Hurl|]. split; [exact Hurl|]. right. done.
Qed.

(** The evaluation of a story pushes at most one story, of the identifier of
    the location, and only when that identifier is new. *)
Lemma evaluate_story_push c storyPk content videoUrl audioUrl st :
  (stories (evaluate_story cfg c storyPk content videoUrl audioUrl st)
   = stories st
   ∧ seenPks (evaluate_story cfg c storyPk content videoUrl audioUrl st)
     = seenPks st
   ∧ disk (evaluate_story cfg c storyPk content videoUrl audioUrl st)
     = disk st)
  ∨ ∃ pk item,
      storyPk = Some pk
      ∧ has (str pk) (seenPks st) = false
      ∧ stories (evaluate_story cfg c storyPk content videoUrl audioUrl st)
        = stories st ++ [item]
      ∧ seenPks (evaluate_story cfg c storyPk content videoUrl audioUrl st)
        = seenPks st ++ [str pk]
      ∧ Story.ig_pk item = str pk
      ∧ (pk ≠ "" → span is_digit pk = (pk, "") → well_formed cfg item).
Proof.
  unfold evaluate_story, video_branch, image_branch.
  destruct storyPk as [pk|]; [|by left].
  destruct (if isVideo content then truthy_string videoUrl else None) as [v|] eqn:Ev.
  - destruct (has (str pk) (seenPks st)) eqn:E; cbn [negb]; [by left|].
    assert (Hv : v ≠ "").
    { destruct (isVideo content); [|done].
      by apply truthy_string_is_str in Ev as [_ ?]. }
    pose proof (video_story_well_formed c pk content v audioUrl
                  (world c) (disk st)) as Hwf.
    destruct (processStory (world c) v audioUrl (disk st)) as [r fs].
    right. eexists pk, _. cbn. rewrite (add_fresh _ _ E).
    do 5 (split; [reflexivity || done|]). intros ? ?. by apply Hwf.
  - destruct (isVideo content); cbn [negb]; [by left|].
    destruct (truthy (select_imageUrl _ content)) eqn:Et; cbn [andb]; [|by left].
    destruct (has (str pk) (seenPks st)) eqn:E; cbn [negb]; [by left|].
    right. eexists pk, _. cbn. rewrite (add_fresh _ _ E).
    do 5 (split; [reflexivity || done|]). intros ? ?.
    by apply image_story_well_formed.
Qed.

(** [go_next] leaves the batch, [this.seenPks] and the files alone. *)
Lemma go_next_frame c st st' :
  go_next c st = Continue st' ∨ go_next c st = Break st' →
  stories st' = stories st ∧ seenPks st' = seenPks st ∧ disk st' = disk st
  ∧ storyIndex st' = S (storyIndex st)
  ∧ noContentCount st' = noContentCount st.
Proof.
  unfold go_next. cbv zeta. cbn [noContentCount].
  destruct (noContentCount st <? 3)%nat; [destruct (advance c)|];
    intros [[=]|[=]]; subst; cbn; auto.
Qed.

Lemma iteration_one_push c st :
  match iteration rt cfg c st with
  | Continue st' | Break st' =>
      one_push cfg c st st' ∧ storyIndex st' = S (storyIndex st)
  | Raise _ => True
  end.
Proof.
  unfold iteration.
  destruct (settle c) as [[]|message]; [|done].
  destruct (already_seen _ (seenPks st)) eqn:Hseen.
  { match goal with |- context [go_next c ?mid] =>
      pose proof (go_next_frame c mid) as Hgo;
      destruct (go_next c mid) as [st'|st'|m]
    end; [| |done];
    (destruct (Hgo st') as (H1 & H2 & H3 & H4 & _); [auto|]);
    (split; [left; cbn in *; auto | exact H4]). }
  destruct (page_dom c) as [d|message] eqn:Hd; [|done].
  match goal with |- context [go_next c ?mid] =>
    pose proof (go_next_frame c mid) as Hgo;
    destruct (go_next c mid) as [st'|st'|m]
  end; [| |done];
  (destruct (Hgo st') as (H1 & H2 & H3 & H4 & _); [auto|]);
  unfold one_push; rewrite H1, H2, H3, H4;
  match goal with
  | |- context [evaluate_story cfg c ?pk ?ct ?v ?a ?base] =>
      pose proof (evaluate_story_frame cfg c pk ct v a base) as (Hi & _);
      destruct (evaluate_story_push c pk ct v a base)
        as [(E1 & E2 & E3)|(pk' & item & Epk & Enew & E1 & E2 & Eid & Ewf)]
  end;
  (split; [|by rewrite Hi]).
  1,3: left; by rewrite E1, E2, E3.
  all: right; exists pk', item; cbn in *;
    destruct (storyPk_of_digits _ _ Epk) as [? ?];
    rewrite E1, E2; eauto 10.
Qed.

End TurnFacts.

Section LoopFacts.
Context (rt : Runtime) (cfg : Config).
Implicit Types (c : Cycle) (st : WalkState) (env : nat → Cycle).

Lemma pushed_refl st : pushed cfg st st [].
Proof.
  unfold pushed. cbn. rewrite !app_nil_r.
  do 2 (split; [done|]). split; [constructor|].
  split; [by intros item ?%elem_of_nil|]. split; [constructor | lia].
Qed.

Lemma pushed_step c st mid st' news :
  one_push cfg c st mid → storyIndex mid = S (storyIndex st) →
  pushed cfg mid st' news →
  ∃ news', pushed cfg st st' news'.
Proof.
  intros [(Hs & Hp & _)|(pk & item & _ & Hnew & _ & Hs & Hp & Hid & Hwf)] Hi
         (Hs' & Hp' & Hwf' & Hfresh & Hnd & Hlen).
  - exists news. unfold pushed. rewrite Hs', Hp', Hs, Hp.
    do 3 (split; [done|]). split; [by rewrite <- Hp|]. split; [done | lia].
  - exists (item :: news). unfold pushed. rewrite Hs', Hp', Hs, Hp, <- !app_assoc.
    cbn. rewrite Hid. do 2 (split; [done|]). split; [by constructor|].
    apply has_false in Hnew.
    assert (Hlater : ∀ it, it ∈ news →
              (Story.ig_pk it ∉ seenPks st) ∧ Story.ig_pk it ≠ str pk).
    { intros it Hin. specialize (Hfresh it Hin). rewrite Hp in Hfresh.
      rewrite elem_of_app, list_elem_of_singleton in Hfresh. tauto. }
    split; [|split; [|lia]].
    + intros it [->|Hin]%elem_of_cons; [by rewrite Hid|]. by apply Hlater.
    + constructor; [|done].
      intros (it & Heq & Hin)%list_elem_of_fmap.
      destruct (Hlater it Hin) as [_ Hne]. by apply Hne.
Qed.

(** The loop pushes what its turns push. *)
Lemma story_loop_pushed turns env st st' :
  story_loop rt cfg turns env st = Some (Normal st') →
  ∃ news, pushed cfg st st' news.
Proof.
  revert st. induction turns as [|turns IH]; intros st; cbn [story_loop];
    destruct (noContentCount st <? 3)%nat; try discriminate;
    try (intros [= <-]; exists []; apply pushed_refl).
  pose proof (iteration_one_push rt cfg (env (storyIndex st)) st) as Hstep.
  destruct (iteration rt cfg (env (storyIndex st)) st) as [mid|mid|message];
    [| |discriminate].
  - destruct Hstep as [Hpush Hi]. intros (news & Hnews)%IH.
    by apply (pushed_step (env (storyIndex st)) st mid st' news).
  - destruct Hstep as [Hpush Hi]. intros [= <-].
    apply (pushed_step (env (storyIndex st)) st mid mid []);
      [done | done | apply pushed_refl].
Qed.

Lemma walk_pushed turns this_seenPks ledger env fs st' :
  story_loop rt cfg turns env (initial_state cfg this_seenPks ledger fs)
  = Some (Normal st') →
  pushed cfg (initial_state cfg this_seenPks ledger fs) st' (stories st').
Proof.
  intros (news & H)%story_loop_pushed.
  assert (stories st' = news) as -> by (by destruct H as [-> _]). exact H.
Qed.

(** A batch of well-formed stories with different identifiers, none of them
    stored, passes [filterProcessedStories] unchanged. *)
Lemma filterProcessedStories_fresh (u : string) (file : option Ledger)
    (batch : list Story.StoryItem) :
  Forall (well_formed cfg) batch →
  NoDup (map Story.ig_pk batch) →
  (∀ item, item ∈ batch → Story.ig_pk item ∉ getProcessedIds u file) →
  filterProcessedStories u file batch = batch.
Proof.
  intros Hwf Hnd Hfresh.
  assert (Hid : ∀ item, item ∈ batch → story_id item = Story.ig_pk item).
  { intros item Hin. rewrite Forall_forall in Hwf.
    destruct (Hwf item Hin) as (pk & Hpk & Hne & _).
    unfold story_id, or_else. rewrite Hpk. by rewrite truthy_str. }
  assert (Hmap : map story_id batch = map Story.ig_pk batch).
  { apply map_ext_in. intros item Hin. apply Hid. by apply list_elem_of_In. }
  rewrite filterProcessedStories_filterNew. unfold filterNew.
  rewrite first_occurrences_id.
  - apply filter_all. intros item Hin. unfold not_persisted.
    rewrite (Hid item Hin). apply negb_true_iff, has_false. by apply Hfresh.
  - by rewrite Hmap.
  - intros item _. apply not_elem_of_nil.
Qed.

End LoopFacts.

(** X12.  The account of a walk that ends normally: [this.seenPks] is what
    it was at the start followed by the identifiers of the returned stories
    in their order; no returned story has an identifier that was seen at the
    start; and the walk returns at most one story per turn taken. *)
Theorem walk_seen_accounting (rt : Runtime) (cfg : Config) (turns : nat)
    (this_seenPks : list value) (ledger : option Ledger)
    (env : nat → Cycle) (fs : files) (st' : WalkState) :
  story_loop rt cfg turns env (initial_state cfg this_seenPks ledger fs)
  = Some (Normal st') →
  seenPks st'
  = seenPks (initial_state cfg this_seenPks ledger fs)
    ++ map Story.ig_pk (stories st')
  ∧ (∀ item, item ∈ stories st' →
       Story.ig_pk item ∉ seenPks (initial_state cfg this_seenPks ledger fs))
  ∧ (length (stories st') ≤ storyIndex st')%nat.
Proof.
  intros (_ & Hp & _ & Hfresh & _ & Hlen)%walk_pushed.
  split; [exact Hp|]. split; [exact Hfresh|]. cbn in Hlen. lia.
Qed.

Lemma walk_seen_accounting_witness :
  ∃ st',
    story_loop Fixtures.runtime_double Fixtures.cfg0 10 Fixtures.walk_after_seen
      (initial_state Fixtures.cfg0 [str "111"] None ∅) = Some (Normal st')
    ∧ seenPks st' = [str "111"; str "222"]
    ∧ seenPks st'
      = seenPks (initial_state Fixtures.cfg0 [str "111"] None ∅)
        ++ map Story.ig_pk (stories st')
    ∧ (∀ item, item ∈ stories st' →
         Story.ig_pk item ∉ seenPks (initial_state Fixtures.cfg0 [str "111"] None ∅))
    ∧ (length (stories st') ≤ storyIndex st')%nat.
Proof.
  eexists. split; [vm_compute; reflexivity|]. split; [reflexivity|].
  apply (walk_seen_accounting Fixtures.runtime_double Fixtures.cfg0 10
           [str "111"] None Fixtures.walk_after_seen ∅).
  vm_compute. reflexivity.
Defined.

(** X13.  Every story a walk returns is well formed: its identifier is the
    non-empty run of digits of a story location, its account is the
    configured one, its permalink is the one of its identifier, its media
    URL and thumbnail are non-empty; a video carries the captured URL and
    either the URL of the local artifact or that captured URL, an image has
    its media URL as thumbnail and no local artifact. *)
Theorem walk_batch_well_formed (rt : Runtime) (cfg : Config) (turns : nat)
    (entryUrl : string) (this_seenPks : list value) (ledger : option Ledger)
    (env : nat → Cycle) (fs : files) (batch : list Story.StoryItem) :
  extractStoryDataFromPage rt cfg turns entryUrl this_seenPks ledger env fs
  = Some batch →
  Forall (well_formed cfg) batch.
Proof.
  unfold extractStoryDataFromPage.
  destruct (negb (includes entryUrl "/stories/")); [by intros [= <-]|].
  destruct (story_loop rt cfg turns env _) as [[st|message]|] eqn:Hrun;
    [| by intros [= <-] | discriminate].
  intros [= <-]. by apply walk_pushed in Hrun as (_ & _ & Hwf & _).
Qed.

Lemma walk_batch_well_formed_witness :
  ∃ batch,
    extractStoryDataFromPage Fixtures.runtime_double Fixtures.cfg0 10
      Fixtures.story_111 [] None Fixtures.walk_video_then_image ∅ = Some batch
    ∧ length batch = 2%nat
    ∧ Forall (well_formed Fixtures.cfg0) batch.
Proof.
  eexists. split; [vm_compute; reflexivity|]. split; [reflexivity|].
  apply (walk_batch_well_formed Fixtures.runtime_double Fixtures.cfg0 10
           Fixtures.story_111 [] None Fixtures.walk_video_then_image ∅).
  vm_compute. reflexivity.
Defined.

Section BatchFacts.
Context (rt : Runtime) (cfg : Config).
Implicit Types (env : nat → Cycle) (batch : list Story.StoryItem).

(** What [extractStoryDataFromPage] returns is the empty array or the
    stories of a loop that ended normally. *)
Lemma extractStoryDataFromPage_cases turns entryUrl this_seenPks ledger env
    (fs : files) batch :
  extractStoryDataFromPage rt cfg turns entryUrl this_seenPks ledger env fs
  = Some batch →
  batch = []
  ∨ ∃ st, story_loop rt cfg turns env (initial_state cfg this_seenPks ledger fs)
          = Some (Normal st) ∧ batch = stories st.
Proof.
  unfold extractStoryDataFromPage.
  destruct (negb (includes entryUrl "/stories/")); [intros [= <-]; by left|].
  destruct (story_loop rt cfg turns env _) as [[st|message]|];
    [| intros [= <-]; by left | discriminate].
  intros [= <-]. right. eauto.
Qed.

(** The stories of a walk of a fresh scraper are well formed, differ in their
    identifiers and are not in the tracker file. *)
Lemma fresh_walk_batch turns entryUrl ledger env (fs : files) batch :
  extractStoryDataFromPage rt cfg turns entryUrl [] ledger env fs = Some batch →
  Forall (well_formed cfg) batch
  ∧ NoDup (map Story.ig_pk batch)
  ∧ ∀ item, item ∈ batch →
      Story.ig_pk item ∉ getProcessedIds (igTargetUsername cfg) ledger.
Proof.
  intros [->|(st & Hrun & ->)]%extractStoryDataFromPage_cases.
  - split; [constructor|]. split; [constructor|]. by intros item ?%elem_of_nil.
  - apply walk_pushed in Hrun as (_ & _ & Hwf & Hfresh & Hnd & _). auto.
Qed.

Lemma well_formed_story_id (item : Story.StoryItem) :
  well_formed cfg item →
  story_id item = Story.ig_pk item ∧ truthy (Story.ig_pk item) = true.
Proof.
  intros (pk & Hpk & Hne & _). unfold story_id, or_else.
  rewrite Hpk, (truthy_str pk Hne). done.
Qed.

End BatchFacts.

(** X14.  The stories returned by the walk of a fresh scraper (its
    [this.seenPks] is loaded from the tracker file of the target account)
    all pass [filterProcessedStories] on that file: the filter applied to
    them afterwards returns the batch as it is. *)
Theorem walk_then_filter (rt : Runtime) (cfg : Config) (turns : nat)
    (entryUrl : string) (ledger : option Ledger) (env : nat → Cycle)
    (fs : files) (batch : list Story.StoryItem) :
  extractStoryDataFromPage rt cfg turns entryUrl [] ledger env fs = Some batch →
  filterProcessedStories (igTargetUsername cfg) ledger batch = batch.
Proof.
  intros (Hwf & Hnd & Hfresh)%fresh_walk_batch.
  by apply (filterProcessedStories_fresh cfg).
Qed.

Lemma walk_then_filter_witness :
  ∃ batch,
    extractStoryDataFromPage Fixtures.runtime_double Fixtures.cfg0 10
      Fixtures.story_111 [] Fixtures.ledger_111 Fixtures.walk_after_seen ∅
    = Some batch
    ∧ map Story.ig_pk batch = [str "222"]
    ∧ filterProcessedStories "someone" Fixtures.ledger_111 batch = batch.
Proof.
  eexists. split; [vm_compute; reflexivity|]. split; [reflexivity|].
  apply (walk_then_filter Fixtures.runtime_double Fixtures.cfg0 10
           Fixtures.story_111 Fixtures.ledger_111 Fixtures.walk_after_seen ∅).
  vm_compute. reflexivity.
Defined.

(** X15.  One sync after another: when the stories of a first walk are
    filtered and marked as processed, as the main program does, the walk of
    a fresh scraper on the resulting tracker file returns no story with the
    identifier of a story of the first walk, and none with an identifier the
    tracker file held before. *)
Theorem second_walk_skips_marked (rt : Runtime) (cfg : Config) (now : Z)
    (turns turns2 : nat) (entryUrl entryUrl2 : string)
    (ledger : option Ledger) (env env2 : nat → Cycle) (fs fs2 : files)
    (batch batch2 : list Story.StoryItem) :
  extractStoryDataFromPage rt cfg turns entryUrl [] ledger env fs = Some batch →
  extractStoryDataFromPage rt cfg turns2 entryUrl2 []
    (markAsProcessed (igTargetUsername cfg) now
       (filterProcessedStories (igTargetUsername cfg) ledger batch) ledger)
    env2 fs2 = Some batch2 →
  ∀ item2, item2 ∈ batch2 →
    (∀ item, item ∈ batch → Story.ig_pk item2 ≠ Story.ig_pk item)
    ∧ Story.ig_pk item2 ∉ getProcessedIds (igTargetUsername cfg) ledger.
Proof.
  intros (Hwf & Hnd & Hfresh)%fresh_walk_batch.
  rewrite (filterProcessedStories_fresh cfg _ _ _ Hwf Hnd Hfresh).
  intros (Hwf2 & _ & Hfresh2)%fresh_walk_batch item2 Hin2.
  specialize (Hfresh2 item2 Hin2).
  rewrite Forall_forall in Hwf, Hwf2.
  destruct (well_formed_story_id cfg item2 (Hwf2 item2 Hin2)) as [_ Ht2].
  rewrite (markAsProcessed_ids _ _ _ _ _ Ht2) in Hfresh2.
  split; [|tauto].
  intros item Hin Heq. apply Hfresh2. right.
  destruct (well_formed_story_id cfg item (Hwf item Hin)) as [Hid _].
  rewrite Heq, <- Hid. apply list_elem_of_fmap. eauto.
Qed.

Lemma second_walk_skips_marked_witness :
  ∃ batch batch2,
    extractStoryDataFromPage Fixtures.runtime_double Fixtures.cfg0 10
      Fixtures.story_111 [] None Fixtures.walk_video_then_image ∅ = Some batch
    ∧ extractStoryDataFromPage Fixtures.runtime_double Fixtures.cfg0 10
        Fixtures.story_111 []
        (markAsProcessed "someone" 1700000000002
           (filterProcessedStories "someone" None batch) None)
        Fixtures.walk_new_story ∅ = Some batch2
    ∧ map Story.ig_pk batch = [str "111"; str "222"]
    ∧ map Story.ig_pk batch2 = [str "333"]
    ∧ ∀ item2, item2 ∈ batch2 →
        (∀ item, item ∈ batch → Story.ig_pk item2 ≠ Story.ig_pk item)
        ∧ Story.ig_pk item2 ∉ getProcessedIds "someone" None.
Proof.
  eexists. eexists. split; [vm_compute; reflexivity|].
  split; [vm_compute; reflexivity|].
  split; [reflexivity|]. split; [reflexivity|].
  apply (second_walk_skips_marked Fixtures.runtime_double Fixtures.cfg0
           1700000000002 10 10 Fixtures.story_111 Fixtures.story_111 None
           Fixtures.walk_video_then_image Fixtures.walk_new_story ∅ ∅).
  - vm_compute. reflexivity.
  - vm_compute. reflexivity.
Defined.

Section SeenFacts.
Context (rt : Runtime) (cfg : Config).
Implicit Types (c : Cycle) (st : WalkState) (env : nat → Cycle).

(** While every story shown is in [this.seenPks], the loop only moves on. *)
Lemma story_loop_seen turns env st outcome :
  (∀ k, settle (env k) = Normal ()) →
  (∀ k, already_seen (storyPk_of (location (env k))) (seenPks st) = true) →
  story_loop rt cfg turns env st = Some outcome →
  ∃ st', outcome = Normal st'
    ∧ stories st' = stories st ∧ seenPks st' = seenPks st
    ∧ disk st' = disk st.
Proof.
  intros Hsettle. revert st.
  induction turns as [|turns IH]; intros st Hseen; cbn [story_loop];
    destruct (noContentCount st <? 3)%nat; try discriminate;
    try (intros [= <-]; eauto 10).
  unfold iteration. rewrite Hsettle, Hseen.
  match goal with |- context [go_next ?c ?mid] =>
    pose proof (go_next_frame c mid) as Hgo;
    pose proof (go_next_cases c mid) as (x & Hx & _);
    destruct (go_next c mid) as [st'|st'|m]
  end.
  - destruct (Hgo st') as (H1 & H2 & H3 & _); [auto|]. cbn in H1, H2, H3.
    intros Hrun. apply IH in Hrun as (st'' & -> & E1 & E2 & E3).
    + exists st''. by rewrite E1, E2, E3.
    + intros k. by rewrite H2.
  - destruct (Hgo st') as (H1 & H2 & H3 & _); [auto|]. cbn in H1, H2, H3.
    intros [= <-]. eauto 10.
  - by destruct Hx as [Hx|[Hx _]].
Qed.

(** A turn whose key press is rejected returns with [break], or with the
    idle count at three. *)
Lemma go_next_rejected c st st' message :
  advance c = Throw message →
  go_next c st = Continue st' → (3 ≤ noContentCount st')%nat.
Proof.
  intros Hadv. unfold go_next. cbv zeta. cbn [noContentCount]. rewrite Hadv.
  destruct (Nat.ltb_spec (noContentCount st) 3); [done|].
  intros [= <-]. cbn. lia.
Qed.

End SeenFacts.

(** X16.  A walk that is only shown stories whose identifier is already in
    [this.seenPks] extracts nothing, however long it runs: it never reads
    the page (a failing page read does not stop it), it returns no story,
    it leaves [this.seenPks] as it was and it changes no file. *)
Theorem walk_of_seen_stories (rt : Runtime) (cfg : Config) (turns : nat)
    (this_seenPks : list value) (ledger : option Ledger)
    (env : nat → Cycle) (fs : files) (outcome : completion WalkState) :
  (∀ k, settle (env k) = Normal ()) →
  (∀ k, already_seen (storyPk_of (location (env k)))
          (seenPks (initial_state cfg this_seenPks ledger fs)) = true) →
  story_loop rt cfg turns env (initial_state cfg this_seenPks ledger fs)
  = Some outcome →
  ∃ st', outcome = Normal st' ∧ stories st' = []
    ∧ seenPks st' = seenPks (initial_state cfg this_seenPks ledger fs)
    ∧ disk st' = fs.
Proof.
  intros Hsettle Hseen Hrun.
  destruct (story_loop_seen rt cfg turns env _ outcome Hsettle Hseen Hrun)
    as (st' & -> & H1 & H2 & H3).
  exists st'. auto.
Qed.

Lemma walk_of_seen_stories_witness :
  ∃ st',
    story_loop Fixtures.runtime_double Fixtures.cfg0 20 Fixtures.walk_closed_page
      (initial_state Fixtures.cfg0 [str "111"; str "222"] None ∅)
    = Some (Normal st')
    ∧ storyIndex st' = 8%nat ∧ stories st' = []
    ∧ seenPks st' = [str "111"; str "222"] ∧ disk st' = ∅.
Proof.
  destruct (walk_of_seen_stories Fixtures.runtime_double Fixtures.cfg0 20
              [str "111"; str "222"] None Fixtures.walk_closed_page ∅
              (Normal {| stories := []; interceptor := fresh_interceptor;
                         storyIndex := 8; noContentCount := 2;
                         lastUrl := Fixtures.story_222;
                         seenPks := [str "111"; str "222"]; disk := ∅ |}))
    as (st' & Hst & H1 & H2 & H3).
  - reflexivity.
  - intros k. unfold Fixtures.walk_closed_page. cbn [location].
    by destruct ((k <? 6)%nat && Nat.even k).
  - vm_compute. reflexivity.
  - injection Hst as <-. eexists. split; [vm_compute; reflexivity|].
    split; [reflexivity|]. split; [exact H1|]. split; [exact H2 | exact H3].
Defined.

(** X17.  A rejected key press ends the walk in that turn: when the wait and
    the page read of a turn succeed and the key press that follows is
    rejected, the loop returns after that turn, whatever turns could follow,
    with what the turn pushed added to the batch. *)
Theorem rejected_key_press_ends_walk (rt : Runtime) (cfg : Config)
    (env : nat → Cycle) (st : WalkState) (more : nat) (message : string) :
  (noContentCount st < 3)%nat →
  settle (env (storyIndex st)) = Normal () →
  (∃ d, page_dom (env (storyIndex st)) = Normal d) →
  advance (env (storyIndex st)) = Throw message →
  ∃ st', story_loop rt cfg (S more) env st = Some (Normal st')
    ∧ one_push cfg (env (storyIndex st)) st st'
    ∧ storyIndex st' = S (storyIndex st).
Proof.
  intros Hcount Hsettle [d Hd] Hadv. cbn [story_loop].
  apply Nat.ltb_lt in Hcount. rewrite Hcount.
  pose proof (iteration_one_push rt cfg (env (storyIndex st)) st) as Hpush.
  destruct (iteration_cases rt cfg (env (storyIndex st)) st)
    as [(m & _ & [H|H])|(mid & Hmid & _)]; [congruence | congruence |].
  destruct (iteration rt cfg (env (storyIndex st)) st) as [st'|st'|m] eqn:Hit.
  - exists st'. split; [|exact Hpush].
    symmetry in Hmid.
    pose proof (go_next_rejected _ _ _ _ Hadv Hmid) as Hidle.
    destruct more; cbn [story_loop];
      destruct (Nat.ltb_spec (noContentCount st') 3); (lia || done).
  - exists st'. split; [done | exact Hpush].
  - pose proof (go_next_cases (env (storyIndex st)) mid)
      as (x & [Hx|[Hx _]] & _); congruence.
Qed.

Lemma rejected_key_press_ends_walk_witness :
  ∃ st',
    story_loop Fixtures.runtime_double Fixtures.cfg0 5
      (λ k, {| requests := requests (Fixtures.walk_video_then_image k);
               settle := Normal (); location := Fixtures.story_111;
               page_dom := page_dom (Fixtures.walk_video_then_image k);
               world := Fixtures.world_ok;
               clock_taken := 0; clock_expiry := 0;
               advance := Throw "Target closed" |})
      (initial_state Fixtures.cfg0 [] None ∅) = Some (Normal st')
    ∧ map Story.ig_pk (stories st') = [str "111"]
    ∧ storyIndex st' = 1%nat.
Proof.
  destruct (rejected_key_press_ends_walk Fixtures.runtime_double Fixtures.cfg0
              (λ k, {| requests := requests (Fixtures.walk_video_then_image k);
                       settle := Normal (); location := Fixtures.story_111;
                       page_dom := page_dom (Fixtures.walk_video_then_image k);
                       world := Fixtures.world_ok;
                       clock_taken := 0; clock_expiry := 0;
                       advance := Throw "Target closed" |})
              (initial_state Fixtures.cfg0 [] None ∅) 4 "Target closed")
    as (st' & Hrun & _ & Hi).
  - cbn. lia.
  - reflexivity.
  - cbn. eauto.
  - reflexivity.
  - exists st'. split; [exact Hrun|]. split; [|exact Hi].
    revert Hrun. vm_compute. by intros [= <-].
Defined.

(** ** The two sets of the listener *)

(** X18.  During a walk the two sets of the listener hold no URL twice,
    every member of [capturedAudios] is classified as audio and every member
    of [capturedVideos] as video by [isAudioOnly], so that no URL is in both
    sets. *)
Theorem listening_sets_sorted (rt : Runtime) (i : Interceptor) :
  listening rt i →
  NoDup (capturedVideos i) ∧ NoDup (capturedAudios i)
  ∧ (∀ u, u ∈ capturedVideos i → isAudioOnly rt u = false)
  ∧ (∀ u, u ∈ capturedAudios i → isAudioOnly rt u = true)
  ∧ (∀ u, u ∈ capturedVideos i → u ∉ capturedAudios i).
Proof.
  intros H.
  assert (Hinv : NoDup (capturedVideos i) ∧ NoDup (capturedAudios i)
                 ∧ (∀ u, u ∈ capturedVideos i → isAudioOnly rt u = false)
                 ∧ (∀ u, u ∈ capturedAudios i → isAudioOnly rt u = true)).
  { induction H as [|i url _ (Hv & Ha & Hkv & Hka)|i _ IH]; cbn.
    - split; [constructor|]. split; [constructor|].
      split; by intros u ?%elem_of_nil.
    - unfold on_request.
      destruct (is_media_request url); [|done].
      destruct (isAudioOnly rt (cleanUrl_of url)) eqn:Hkind.
      + destruct (has _ (capturedAudios i)) eqn:E; cbn; [done|].
        rewrite (add_fresh _ _ E). apply has_false in E.
        split; [done|]. split; [|split; [done|]].
        * apply NoDup_app. split; [done|]. split; [|apply NoDup_singleton].
          by intros u ? ->%list_elem_of_singleton.
        * intros u [?| ->%list_elem_of_singleton]%elem_of_app; auto.
      + destruct (has _ (capturedVideos i)) eqn:E; cbn; [done|].
        rewrite (add_fresh _ _ E). apply has_false in E.
        split; [|split; [done|split; [|done]]].
        * apply NoDup_app. split; [done|]. split; [|apply NoDup_singleton].
          by intros u ? ->%list_elem_of_singleton.
        * intros u [?| ->%list_elem_of_singleton]%elem_of_app; auto.
    - exact IH. }
  destruct Hinv as (Hv & Ha & Hkv & Hka).
  do 4 (split; [done|]).
  intros u Hin Hin'. specialize (Hkv u Hin). specialize (Hka u Hin'). congruence.
Qed.

Lemma listening_sets_sorted_witness :
  capturedVideos
    (foldl (on_request Fixtures.runtime_double) fresh_interceptor
       (requests (Fixtures.walk_after_seen 0)))
  = ["https://v.fbcdn.net/m367/111.mp4"]
  ∧ ∀ u, u ∈ capturedVideos
               (foldl (on_request Fixtures.runtime_double) fresh_interceptor
                  (requests (Fixtures.walk_after_seen 0))) →
         u ∉ capturedAudios
               (foldl (on_request Fixtures.runtime_double) fresh_interceptor
                  (requests (Fixtures.walk_after_seen 0))).
Proof.
  split; [reflexivity|].
  apply (listening_sets_sorted Fixtures.runtime_double).
  cbn [Fixtures.walk_after_seen Fixtures.cycle_at requests foldl].
  apply listening_request, listening_request, listening_start.
Defined.

(** ** The log buffer *)

(** X19.  After [log], the message just formatted is the last one
    [getLastLogMessages] returns, for every positive count; before it come
    the newest older messages, as many as the count leaves room for.  A
    count of 0 returns the whole buffer, and a call without argument is a
    call with 50. *)
Theorem log_then_last (iso message : string) (logMessages : list string) (n : Z) :
  (0 < n →
   ∃ older before,
     Logger.getLastLogMessages (Some n) (Logger.log iso message logMessages)
     = older ++ [Logger.format_message iso message]
     ∧ logMessages = before ++ older
     ∧ length older = Nat.min (Z.to_nat n - 1) (length logMessages))
  ∧ Logger.getLastLogMessages (Some 0) (Logger.log iso message logMessages)
    = Logger.log iso message logMessages
  ∧ Logger.getLastLogMessages None logMessages
    = Logger.getLastLogMessages (Some 50) logMessages.
Proof.
  split; [|split; [|reflexivity]].
  2:{ unfold Logger.getLastLogMessages, Logger.slice_from. cbn [from_option id].
      change (- 0 <? 0) with false. cbv iota.
      rewrite Z.min_l by lia. reflexivity. }
  intros Hn. unfold Logger.getLastLogMessages, Logger.slice_from, Logger.log.
  cbn [from_option id]. rewrite length_app. cbn [length].
  destruct (Z.ltb_spec (- n) 0); [|lia].
  set (k := Z.to_nat (Z.max (Z.of_nat (length logMessages + 1) + - n) 0)).
  assert (Hk : (k ≤ length logMessages)%nat) by (unfold k; lia).
  exists (drop k logMessages), (take k logMessages).
  split; [by rewrite drop_app_le|]. split; [by rewrite take_drop|].
  rewrite length_drop. unfold k. lia.
Qed.

Lemma log_then_last_witness :
  ∃ older before,
    Logger.getLastLogMessages (Some 2)
      (Logger.log "2026-03-01T10:20:30.456Z" "Sync complete" ["a"; "b"; "c"])
    = older ++ ["[2026-03-01 10:20:30] Sync complete"]
    ∧ ["a"; "b"; "c"] = before ++ older
    ∧ length older = 1%nat.
Proof.
  destruct (log_then_last "2026-03-01T10:20:30.456Z" "Sync complete"
              ["a"; "b"; "c"] 2) as [Hlast _].
  destruct Hlast as (older & before & H1 & H2 & H3); [lia|].
  exists older, before. split; [exact H1|]. split; [exact H2 | exact H3].
Defined.

(** ** The configuration check *)

(** X20.  [validateConfig] returns [true], and nothing else, exactly when
    the five variables are set to non-empty texts.  It reports the missing
    credentials first: the error about the API variables is thrown only when
    the three credentials are present. *)
Theorem validateConfig_configured (env : Env.environment) :
  match Env.validateConfig (Env.config_of env) with
  | Normal b =>
      b = true
      ∧ Forall (λ name, truthy (env name) = true)
          ["IG_USERNAME"; "IG_PASSWORD"; "IG_TARGET_USERNAME";
           "LARAVEL_API_URL"; "LARAVEL_API_KEY"]
  | Throw message =>
      (Exists (λ name, truthy (env name) = false)
         ["IG_USERNAME"; "IG_PASSWORD"; "IG_TARGET_USERNAME"]
       ∧ startsWith message "Missing required environment variables: " = true)
      ∨ (Forall (λ name, truthy (env name) = true)
           ["IG_USERNAME"; "IG_PASSWORD"; "IG_TARGET_USERNAME"]
         ∧ Exists (λ name, truthy (env name) = false)
             ["LARAVEL_API_URL"; "LARAVEL_API_KEY"]
         ∧ message = "LARAVEL_API_URL and LARAVEL_API_KEY must be configured")
  end.
Proof.
  unfold Env.validateConfig, Env.config_of, Env.required.
  cbn [Env.laravelApiUrl Env.laravelApiKey List.filter].
  unfold Env.config_get.
  cbn [String.eqb Ascii.eqb Bool.eqb Env.igUsername Env.igPassword
       Env.igTargetUsername].
  destruct (truthy (env "IG_USERNAME")) eqn:E1;
    destruct (truthy (env "IG_PASSWORD")) eqn:E2;
    destruct (truthy (env "IG_TARGET_USERNAME")) eqn:E3;
    cbn [negb length Nat.ltb Nat.leb].
  2-8: left; split; [|reflexivity];
       repeat first [apply Exists_cons_hd; assumption | apply Exists_cons_tl].
  destruct (truthy (env "LARAVEL_API_URL")) eqn:E4;
    destruct (truthy (env "LARAVEL_API_KEY")) eqn:E5; cbn [negb orb].
  1: split; [done|]; repeat constructor; assumption.
  all: right; split; [repeat constructor; assumption|]; split; [|done];
       repeat first [apply Exists_cons_hd; assumption | apply Exists_cons_tl].
Qed.

(** ** The byte-range parameters of a media URL *)

Lemma append_nil_r (s : string) : s +:+ "" = s.
Proof. induction s as [|c s IH]; [done|]. by rewrite append_cons, IH. Qed.

Lemma startsWith_append (l r : string) : startsWith (l +:+ r) l = true.
Proof.
  induction l as [|c l IH]; [rewrite append_nil; by destruct r|].
  rewrite append_cons. cbn. by rewrite Ascii.eqb_refl.
Qed.

Lemma drop_units_append (l r : string) :
  drop_units (String.length l) (l +:+ r) = r.
Proof.
  induction l as [|c l IH]; [rewrite append_nil; by destruct r|].
  rewrite append_cons. cbn. apply IH.
Qed.

Lemma after_literal_append (l r : string) : after_literal l (l +:+ r) = Some r.
Proof.
  unfold after_literal. by rewrite startsWith_append, drop_units_append.
Qed.

(** A match of [l] at the head of [x +:+ r] lies in [x] or crosses into [r]. *)
Lemma startsWith_cross (x r l : string) :
  startsWith (x +:+ r) l = true →
  startsWith x l = true
  ∨ ((String.length x < String.length l)%nat
     ∧ startsWith r (drop_units (String.length x) l) = true).
Proof.
  revert x. induction l as [|a l IH]; intros x H; [by left; destruct x|].
  destruct x as [|b x].
  - right. rewrite append_nil in H. cbn. split; [lia | done].
  - rewrite append_cons in H. cbn in H |- *.
    destruct (Ascii.eqb a b); [|done].
    destruct (IH x H) as [?|[? ?]]; [by left | right; split; [lia | done]].
Qed.

Lemma includes_false (s sub : string) :
  includes s sub = false → startsWith s sub = false.
Proof. destruct s; cbn; by intros [? ?]%orb_false_elim. Qed.

Lemma span_digits_append (a r : string) :
  span is_digit a = (a, "") →
  match r with String c _ => is_digit c = false | EmptyString => True end →
  span is_digit (a +:+ r) = (a, r).
Proof.
  intros Ha Hr. induction a as [|d a IH].
  - rewrite append_nil. destruct r as [|c r]; [done|]. cbn [span]. by rewrite Hr.
  - rewrite append_cons. cbn [span] in Ha |- *.
    destruct (is_digit d); [|done].
    destruct (span is_digit a) as [a' b'] eqn:E. injection Ha as -> ->.
    by rewrite IH.
Qed.

Lemma digits1_append (a r : string) :
  a ≠ "" → span is_digit a = (a, "") →
  match r with String c _ => is_digit c = false | EmptyString => True end →
  digits1 (a +:+ r) = Some (a, r).
Proof.
  intros Hne Ha Hr. unfold digits1. rewrite (span_digits_append a r Ha Hr).
  apply String.eqb_neq in Hne. by rewrite Hne.
Qed.

(** The pattern matches a range written with two runs of digits. *)
Lemma match_byte_range_here (lead trail a b rest : string) :
  a ≠ "" → span is_digit a = (a, "") → b ≠ "" → span is_digit b = (b, "") →
  match rest with String c _ => is_digit c = false | EmptyString => True end →
  match_byte_range lead trail (lead +:+ a +:+ "&byteend=" +:+ b +:+ rest)
  = after_literal trail rest.
Proof.
  intros Ha Hda Hb Hdb Hrest. unfold match_byte_range.
  rewrite after_literal_append. cbn [mbind option_bind].
  rewrite (digits1_append a _ Ha Hda) by (by rewrite append_cons).
  cbn [mbind option_bind]. rewrite after_literal_append. cbn [mbind option_bind].
  by rewrite (digits1_append b rest Hb Hdb Hrest).
Qed.

Section ReplaceFacts.
Context (m : string → option string) (by_ : string).

Lemma replace_from_skip_1 (d : ascii) (s : string) (n : nat) :
  m (String d s) = None →
  replace_from (S n) m by_ (String d s) = String d (replace_from n m by_ s).
Proof. intros H. cbn [replace_from]. by rewrite H. Qed.

Lemma replace_from_empty (n : nat) :
  m "" = None → replace_from n m by_ "" = "".
Proof. intros H. destruct n; cbn [replace_from]; [done|]. by rewrite H. Qed.

End ReplaceFacts.

Section ByteRange.
(** One of the three patterns: its first character and what follows the
    second run of digits. *)
Context (c0 : ascii) (trail by_ : string).

#[local] Abbreviation pattern :=
  (match_byte_range (String c0 "bytestart=") trail).

Lemma pattern_empty : pattern "" = None.
Proof. reflexivity. Qed.

(** No match starts inside a text that does not contain "bytestart=", when
    what follows the text cannot complete that word. *)
Lemma replace_from_skip (x r : string) (n : nat) :
  includes x "bytestart=" = false →
  (∀ k, (k < 10)%nat → startsWith r (drop_units k "bytestart=") = false) →
  replace_from (String.length x + n) pattern by_ (x +:+ r)
  = x +:+ replace_from n pattern by_ r.
Proof.
  intros Hinc Hr. induction x as [|d x IH].
  - by rewrite !append_nil.
  - cbn [includes] in Hinc. apply orb_false_elim in Hinc as [_ Hinc].
    rewrite !append_cons. cbn [String.length Nat.add].
    rewrite replace_from_skip_1; [by rewrite IH|].
    unfold match_byte_range, after_literal. cbn [startsWith].
    destruct (Ascii.eqb c0 d); [|done].
    destruct (startsWith (x +:+ r) "bytestart=") eqn:E; [|done].
    apply startsWith_cross in E as [E|[Hlen E]].
    + by rewrite (includes_false _ _ Hinc) in E.
    + cbn in Hlen. by rewrite Hr in E.
Qed.

Lemma replace_from_id (x : string) (n : nat) :
  includes x "bytestart=" = false →
  replace_from (String.length x + n) pattern by_ x = x.
Proof.
  intros Hinc.
  pose proof (replace_from_skip x "" n Hinc) as H.
  rewrite append_nil_r, (replace_from_empty _ _ _ pattern_empty), append_nil_r in H.
  apply H. intros k Hk. do 10 (destruct k as [|k]; [reflexivity|]). lia.
Qed.

Lemma replace_all_id (x : string) :
  includes x "bytestart=" = false → replace_all pattern by_ x = x.
Proof.
  intros Hinc. unfold replace_all.
  rewrite <- (Nat.add_0_r (String.length x)). by apply replace_from_id.
Qed.

(** No match starts at a digit. *)
Lemma replace_from_skip_digits (a r : string) (n : nat) :
  is_digit c0 = false →
  span is_digit a = (a, "") →
  replace_from (String.length a + n) pattern by_ (a +:+ r)
  = a +:+ replace_from n pattern by_ r.
Proof.
  intros Hc0. induction a as [|d a IH]; intros Ha.
  - by rewrite !append_nil.
  - cbn [span] in Ha. destruct (is_digit d) eqn:Hd; [|done].
    destruct (span is_digit a) as [a' b'] eqn:E. injection Ha as -> ->.
    rewrite !append_cons. cbn [String.length Nat.add].
    rewrite replace_from_skip_1; [by rewrite IH|].
    unfold match_byte_range, after_literal. cbn [startsWith].
    destruct (Ascii.eqb_spec c0 d) as [->|]; [congruence | done].
Qed.

Lemma replace_from_digits (a : string) (n : nat) :
  is_digit c0 = false →
  span is_digit a = (a, "") →
  replace_from (String.length a + n) pattern by_ a = a.
Proof.
  intros Hc0 Ha.
  pose proof (replace_from_skip_digits a "" n Hc0 Ha) as H.
  by rewrite append_nil_r, (replace_from_empty _ _ _ pattern_empty),
       append_nil_r in H.
Qed.

End ByteRange.

Lemma match_byte_range_end (lead trail a b : string) :
  a ≠ "" → span is_digit a = (a, "") → b ≠ "" → span is_digit b = (b, "") →
  match_byte_range lead trail (lead +:+ a +:+ "&byteend=" +:+ b)
  = after_literal trail "".
Proof.
  intros Ha Hda Hb Hdb.
  pose proof (match_byte_range_here lead trail a b "" Ha Hda Hb Hdb I) as H.
  by rewrite append_nil_r in H.
Qed.

Lemma bytestart_amp (r : string) (k : nat) :
  (k < 10)%nat → startsWith ("&" +:+ r) (drop_units k "bytestart=") = false.
Proof. intros Hk. do 10 (destruct k as [|k]; [reflexivity|]). lia. Qed.

Lemma bytestart_que (r : string) (k : nat) :
  (k < 10)%nat → startsWith ("?" +:+ r) (drop_units k "bytestart=") = false.
Proof. intros Hk. do 10 (destruct k as [|k]; [reflexivity|]). lia. Qed.

(** A range at the end of the text is removed by a pattern without
    trailer. *)
Lemma replace_all_end (c0 : ascii) (base a b : string) :
  Ascii.eqb c0 "&" || Ascii.eqb c0 "?" = true →
  includes base "bytestart=" = false →
  a ≠ "" → span is_digit a = (a, "") → b ≠ "" → span is_digit b = (b, "") →
  replace_all (match_byte_range (String c0 "bytestart=") "") ""
    (base +:+ String c0 "bytestart=" +:+ a +:+ "&byteend=" +:+ b) = base.
Proof.
  intros Hc0 Hbase Ha Hda Hb Hdb.
  unfold replace_all. rewrite append_length.
  rewrite (append_cons c0 "bytestart=") at 1. cbn [String.length].
  rewrite replace_from_skip; [|done|].
  2:{ intros k Hk. apply orb_true_iff in Hc0 as [E|E];
        apply Ascii.eqb_eq in E; subst c0;
        [by apply bytestart_amp | by apply bytestart_que]. }
  cbn [replace_from].
  rewrite (match_byte_range_end (String c0 "bytestart=") "" a b Ha Hda Hb Hdb).
  cbn [after_literal startsWith String.length drop_units].
  rewrite (replace_from_empty _ _ _ eq_refl).
  by rewrite append_nil, append_nil_r.
Qed.

Section RangeKept.
Context (c0 : ascii) (trail by_ : string).
Context (Hc0 : Ascii.eqb c0 "&" || Ascii.eqb c0 "?" = true).

Lemma pattern_literal (d : ascii) (s : string) :
  Ascii.eqb c0 d = false →
  match_byte_range (String c0 "bytestart=") trail (String d s) = None.
Proof.
  intros Hd. unfold match_byte_range, after_literal. cbn [startsWith].
  by rewrite Hd.
Qed.

Lemma lead_not (d : ascii) :
  Ascii.eqb "&" d = false → Ascii.eqb "?" d = false → Ascii.eqb c0 d = false.
Proof.
  intros H1 H2. apply orb_true_iff in Hc0 as [E|E];
    apply Ascii.eqb_eq in E; by subst c0.
Qed.

Lemma lead_not_digit : is_digit c0 = false.
Proof.
  apply orb_true_iff in Hc0 as [E|E]; apply Ascii.eqb_eq in E; by subst c0.
Qed.

(** The text of a range with nothing to match in it is kept: neither its
    two words nor its digits start a match. *)
Lemma replace_from_range_kept (a b r : string) (n : nat) :
  match_byte_range (String c0 "bytestart=") trail
    ("?bytestart=" +:+ a +:+ "&byteend=" +:+ b +:+ r) = None →
  span is_digit a = (a, "") → span is_digit b = (b, "") →
  replace_from (11 + (String.length a + (9 + (String.length b + n))))
    (match_byte_range (String c0 "bytestart=") trail) by_
    ("?bytestart=" +:+ a +:+ "&byteend=" +:+ b +:+ r)
  = "?bytestart=" +:+ a +:+ "&byteend=" +:+ b
    +:+ replace_from n (match_byte_range (String c0 "bytestart=") trail) by_ r.
Proof.
  intros Hhere Hda Hdb. cbn [Nat.add].
  rewrite (replace_from_skip_1 _ _ "?"
             ("bytestart=" +:+ a +:+ "&byteend=" +:+ b +:+ r) _ Hhere).
  rewrite !append_cons, !append_nil.
  do 10 (rewrite replace_from_skip_1 by (by apply pattern_literal, lead_not)).
  rewrite (replace_from_skip_digits c0 trail by_ a _ _ lead_not_digit Hda).
  rewrite replace_from_skip_1.
  2:{ unfold match_byte_range, after_literal. cbn [startsWith].
      by destruct (Ascii.eqb c0 "&"). }
  do 8 (rewrite replace_from_skip_1 by (by apply pattern_literal, lead_not)).
  by rewrite (replace_from_skip_digits c0 trail by_ b _ _ lead_not_digit Hdb).
Qed.

Lemma replace_all_kept (base a b r : string) :
  includes base "bytestart=" = false →
  match_byte_range (String c0 "bytestart=") trail
    ("?bytestart=" +:+ a +:+ "&byteend=" +:+ b +:+ r) = None →
  span is_digit a = (a, "") → span is_digit b = (b, "") →
  replace_from (String.length r)
    (match_byte_range (String c0 "bytestart=") trail) by_ r = r →
  replace_all (match_byte_range (String c0 "bytestart=") trail) by_
    (base +:+ "?bytestart=" +:+ a +:+ "&byteend=" +:+ b +:+ r)
  = base +:+ "?bytestart=" +:+ a +:+ "&byteend=" +:+ b +:+ r.
Proof.
  intros Hbase Hhere Hda Hdb Hr. unfold replace_all.
  replace (String.length
             (base +:+ "?bytestart=" +:+ a +:+ "&byteend=" +:+ b +:+ r))
    with (String.length base
          + (11 + (String.length a + (9 + (String.length b + String.length r)))))%nat
    by (rewrite !append_length; cbn [String.length]; lia).
  rewrite replace_from_skip by (done || apply bytestart_que).
  by rewrite (replace_from_range_kept a b r _ Hhere Hda Hdb), Hr.
Qed.

End RangeKept.

(** X21.  What the listener's normalisation does to a URL: a URL without
    the word "bytestart=" is left as it is; a byte range at the end of such
    a URL, written [&bytestart=a&byteend=b] or [?bytestart=a&byteend=b], is
    removed; and a range that opens the query,
    [?bytestart=a&byteend=b&rest], leaves [?rest].  Two range requests for
    the same asset therefore have the same normalised URL. *)
Theorem cleanUrl_of_byte_range (base a b rest : string) :
  includes base "bytestart=" = false →
  includes rest "bytestart=" = false →
  a ≠ "" → span is_digit a = (a, "") →
  b ≠ "" → span is_digit b = (b, "") →
  cleanUrl_of base = base
  ∧ cleanUrl_of (base +:+ "&bytestart=" +:+ a +:+ "&byteend=" +:+ b) = base
  ∧ cleanUrl_of (base +:+ "?bytestart=" +:+ a +:+ "&byteend=" +:+ b) = base
  ∧ cleanUrl_of (base +:+ "?bytestart=" +:+ a +:+ "&byteend=" +:+ b
                 +:+ "&" +:+ rest)
    = base +:+ "?" +:+ rest.
Proof.
  intros Hbase Hrest Ha Hda Hb Hdb.
  assert (Hid2 : replace_all (match_byte_range "?bytestart=" "") ""
                   (replace_all (match_byte_range "?bytestart=" "&") "?" base)
                 = base).
  { by rewrite (replace_all_id "?" "&" "?" base Hbase),
         (replace_all_id "?" "" "" base Hbase). }
  assert (Hrest0 : startsWith rest "bytestart=" = false)
    by (by apply includes_false).
  unfold cleanUrl_of. cbv zeta.
  split; [by rewrite (replace_all_id "&" "" "" base Hbase)|].
  split; [|split].
  - (* the first pattern removes the range *)
    by rewrite (replace_all_end "&" base a b eq_refl Hbase Ha Hda Hb Hdb).
  - (* the first two patterns find nothing, the third removes the range *)
    pose proof (replace_all_kept "&" "" "" eq_refl base a b "" Hbase
                  eq_refl Hda Hdb eq_refl) as H1.
    pose proof (replace_all_kept "?" "&" "?" eq_refl base a b "" Hbase) as H2.
    rewrite append_nil_r in H1, H2.
    rewrite H1, H2; [|by rewrite (match_byte_range_end "?bytestart=" "&" a b)
                     | done | done | done].
    exact (replace_all_end "?" base a b eq_refl Hbase Ha Hda Hb Hdb).
  - (* the second pattern puts the question mark in the place of the range *)
    rewrite (replace_all_kept "&" "" "" eq_refl base a b ("&" +:+ rest) Hbase
               eq_refl Hda Hdb).
    2:{ rewrite append_cons, append_nil. cbn [String.length].
        rewrite replace_from_skip_1.
        - f_equal. rewrite <- (Nat.add_0_r (String.length rest)).
          by apply replace_from_id.
        - unfold match_byte_range, after_literal. cbn [startsWith Ascii.eqb].
          cbn. by rewrite Hrest0. }
    assert (replace_all (match_byte_range "?bytestart=" "&") "?"
              (base +:+ "?bytestart=" +:+ a +:+ "&byteend=" +:+ b
               +:+ "&" +:+ rest)
            = base +:+ "?" +:+ rest) as ->.
    { unfold replace_all.
      replace (String.length
                 (base +:+ "?bytestart=" +:+ a +:+ "&byteend=" +:+ b
                  +:+ "&" +:+ rest))
        with (String.length base
              + S (String.length rest
                   + (String.length a + String.length b + 20)))%nat
        by (rewrite !append_length; cbn [String.length]; lia).
      rewrite replace_from_skip by (done || apply bytestart_que).
      cbn [replace_from].
      rewrite (match_byte_range_here "?bytestart=" "&" a b ("&" +:+ rest)
                 Ha Hda Hb Hdb eq_refl).
      rewrite after_literal_append.
      by rewrite (replace_from_id "?" "&" "?" rest _ Hrest). }
    unfold replace_all. rewrite append_length.
    rewrite replace_from_skip by (done || apply bytestart_que).
    rewrite append_cons, append_nil. cbn [String.length].
    rewrite replace_from_skip_1.
    + rewrite <- (Nat.add_0_r (String.length rest)).
      by rewrite (replace_from_id "?" "" "" rest _ Hrest).
    + unfold match_byte_range, after_literal. cbn [startsWith Ascii.eqb].
      cbn. by rewrite Hrest0.
Qed.

Lemma cleanUrl_of_byte_range_witness :
  cleanUrl_of "https://v.fbcdn.net/m367/222.mp4?efg=e30&bytestart=0&byteend=1023"
  = "https://v.fbcdn.net/m367/222.mp4?efg=e30"
  ∧ cleanUrl_of "https://v.fbcdn.net/m367/222.mp4?bytestart=1024&byteend=2047"
    = "https://v.fbcdn.net/m367/222.mp4"
  ∧ cleanUrl_of "https://v.fbcdn.net/m367/222.mp4?bytestart=0&byteend=9&efg=e30"
    = "https://v.fbcdn.net/m367/222.mp4?efg=e30".
Proof.
  split; [|split].
  - destruct (cleanUrl_of_byte_range "https://v.fbcdn.net/m367/222.mp4?efg=e30"
                "0" "1023" "") as (_ & H & _);
      [vm_compute; reflexivity | reflexivity | discriminate | reflexivity
      | discriminate | reflexivity | exact H].
  - destruct (cleanUrl_of_byte_range "https://v.fbcdn.net/m367/222.mp4"
                "1024" "2047" "") as (_ & _ & H & _);
      [vm_compute; reflexivity | reflexivity | discriminate | reflexivity
      | discriminate | reflexivity | exact H].
  - destruct (cleanUrl_of_byte_range "https://v.fbcdn.net/m367/222.mp4"
                "0" "9" "efg=e30") as (_ & _ & _ & H);
      [vm_compute; reflexivity | reflexivity | discriminate | reflexivity
      | discriminate | reflexivity | exact H].
Defined.

(** ** The end of a walk *)

Section SettleFacts.
Context (rt : Runtime) (cfg : Config).
Implicit Types (c : Cycle) (st : WalkState) (env : nat → Cycle).

(** Once the location stays the same, every turn adds to the idle count. *)
Lemma story_loop_stuck_from env url turns st :
  (∀ j, (storyIndex st ≤ j)%nat → location (env j) = url) →
  lastUrl st = url → (0 < storyIndex st)%nat →
  (3 ≤ noContentCount st + turns)%nat →
  ∃ outcome, story_loop rt cfg turns env st = Some outcome
    ∧ match outcome with
      | Normal st' => (storyIndex st' ≤ storyIndex st + turns)%nat
      | Throw _ => True
      end.
Proof.
  revert st.
  induction turns as [|turns IH]; intros st Hloc Hlast Hidx Hcount;
    cbn [story_loop].
  - destruct (Nat.ltb_spec (noContentCount st) 3); [lia|].
    eexists. split; [reflexivity | cbn; lia].
  - destruct (Nat.ltb_spec (noContentCount st) 3);
      [|eexists; split; [reflexivity | cbn; lia]].
    pose proof (iteration_step rt cfg (env (storyIndex st)) st) as Hstep.
    assert (Hsame : location_unchanged (location (env (storyIndex st))) st = true).
    { unfold location_unchanged. rewrite Hloc, Hlast, String.eqb_refl by lia.
      apply Nat.ltb_lt in Hidx. by rewrite Hidx. }
    destruct (iteration rt cfg (env (storyIndex st)) st) as [st'|st'|message].
    + destruct Hstep as (Hi & Hl & Hn & _). rewrite Hsame in Hl, Hn.
      destruct (IH st') as (outcome & Hrun & Hbound);
        [intros j Hj; apply Hloc; lia | congruence | lia | lia |].
      exists outcome. split; [exact Hrun|].
      destruct outcome; [lia | exact I].
    + destruct Hstep as [(Hi & _) _]. eexists. split; [reflexivity | cbn; lia].
    + eexists. split; [reflexivity | exact I].
Qed.

(** From any state: when the location stays the same from [d] turns on,
    the loop ends within [d + 4] turns. *)
Lemma story_loop_until env url d st :
  (∀ j, (storyIndex st + d ≤ j)%nat → location (env j) = url) →
  ∃ outcome, story_loop rt cfg (d + 4) env st = Some outcome
    ∧ match outcome with
      | Normal st' => (storyIndex st' ≤ storyIndex st + d + 4)%nat
      | Throw _ => True
      end.
Proof.
  revert st. induction d as [|d IH]; intros st Hloc;
    cbn [Nat.add]; cbn [story_loop];
    (destruct (Nat.ltb_spec (noContentCount st) 3);
       [|eexists; split; [reflexivity | cbn; lia]]);
    pose proof (iteration_step rt cfg (env (storyIndex st)) st) as Hstep;
    destruct (iteration rt cfg (env (storyIndex st)) st) as [st'|st'|message];
    try (destruct Hstep as [(Hi & _) _]; eexists;
         split; [reflexivity | cbn; lia]);
    try (eexists; split; [reflexivity | exact I]).
  - destruct Hstep as (Hi & Hl & Hn & _).
    assert (Hlast : lastUrl st' = url).
    { rewrite Hl. unfold location_unchanged.
      destruct (String.eqb_spec (location (env (storyIndex st))) (lastUrl st))
        as [E|_]; cbn [andb].
      - destruct (0 <? storyIndex st)%nat; [rewrite <- E|]; apply Hloc; lia.
      - apply Hloc. lia. }
    destruct (story_loop_stuck_from env url 3 st') as (outcome & Hrun & Hbound);
      [intros j Hj; apply Hloc; lia | exact Hlast | lia | lia |].
    exists outcome. split; [exact Hrun|]. destruct outcome; [lia | exact I].
  - destruct Hstep as (Hi & _).
    destruct (IH st') as (outcome & Hrun & Hbound);
      [intros j Hj; apply Hloc; lia|].
    exists outcome. split; [exact Hrun|]. destruct outcome; [lia | exact I].
Qed.

End SettleFacts.

(** X22.  A walk ends once the viewer stops moving: when the location is
    the same from turn [k] on, the loop ends within [k + 4] turns, whatever
    the earlier locations, the page and the requests are and whichever calls
    fail; the call then returns the stories pushed so far, or the empty
    array when a browser call threw. *)
Theorem walk_settles (rt : Runtime) (cfg : Config) (entryUrl url : string)
    (this_seenPks : list value) (ledger : option Ledger)
    (env : nat → Cycle) (fs : files) (k : nat) :
  (∀ j, (k ≤ j)%nat → location (env j) = url) →
  ∃ outcome,
    (∀ turns, (k + 4 ≤ turns)%nat →
       story_loop rt cfg turns env (initial_state cfg this_seenPks ledger fs)
       = Some outcome)
    ∧ (includes entryUrl "/stories/" = true →
       ∀ turns, (k + 4 ≤ turns)%nat →
         extractStoryDataFromPage rt cfg turns entryUrl this_seenPks
           ledger env fs
         = Some (match outcome with
                 | Normal st => stories st
                 | Throw _ => []
                 end))
    ∧ match outcome with
      | Normal st => (storyIndex st ≤ k + 4)%nat
      | Throw _ => True
      end.
Proof.
  intros Hloc.
  destruct (story_loop_until rt cfg env url k
              (initial_state cfg this_seenPks ledger fs) Hloc)
    as (outcome & Hrun & Hbound).
  assert (Hall : ∀ turns, (k + 4 ≤ turns)%nat →
                   story_loop rt cfg turns env
                     (initial_state cfg this_seenPks ledger fs) = Some outcome).
  { intros turns Hle. replace turns with (k + 4 + (turns - (k + 4)))%nat by lia.
    by apply story_loop_more. }
  exists outcome. split; [exact Hall|]. split; [|exact Hbound].
  intros Hentry turns Hle. unfold extractStoryDataFromPage.
  rewrite Hentry, (Hall turns Hle). cbn. by destruct outcome.
Qed.

Lemma walk_settles_witness :
  ∃ st,
    story_loop Fixtures.runtime_double Fixtures.cfg0 6 Fixtures.walk_after_seen
      (initial_state Fixtures.cfg0 [] Fixtures.ledger_111 ∅) = Some (Normal st)
    ∧ storyIndex st = 5%nat
    ∧ extractStoryDataFromPage Fixtures.runtime_double Fixtures.cfg0 6
        Fixtures.story_111 [] Fixtures.ledger_111 Fixtures.walk_after_seen ∅
      = Some (stories st).
Proof.
  destruct (walk_settles Fixtures.runtime_double Fixtures.cfg0
              Fixtures.story_111 Fixtures.story_222 [] Fixtures.ledger_111
              Fixtures.walk_after_seen ∅ 1)
    as (outcome & Hrun & Hbatch & _).
  - intros [|[|j]] Hj; [lia | reflexivity | reflexivity].
  - specialize (Hrun 6%nat ltac:(lia)).
    specialize (Hbatch eq_refl 6%nat ltac:(lia)).
    destruct outcome as [st|message].
    + exists st. split; [exact Hrun|]. split; [|exact Hbatch].
      revert Hrun. vm_compute. by intros [= <-].
    + revert Hrun. vm_compute. discriminate.
Defined.
